(** * Constraint automata of updown/modules/constraint.py

    A shallow embedding of [_CBSMatrix], [CBSConstraint] and
    [FreeConstraint], and the properties of the transition tensors they
    build.  Python exceptions are values of [exn]; a method that mutates
    [self] is a state transformer that may raise. *)

From Stdlib Require Import ZArith Ascii String.
From Stdlib Require Import Sorted.
From stdpp Require Import base tactics option list strings gmap.

Local Open Scope string_scope.
Local Open Scope nat_scope.

#[local] Set Warnings "-clear-no-such-hyp".

(** ** Exceptions and the state-and-exception monad *)

Inductive exn : Type :=
| AssertionError
| IndexError.

Inductive result (A : Type) : Type :=
| Ok (a : A)
| Raise (e : exn).
Arguments Ok {A} a.
Arguments Raise {A} e.

#[global] Instance result_ret : MRet result := λ A a, Ok a.
#[global] Instance result_bind : MBind result := λ A B k r,
  match r with
  | Ok a => k a
  | Raise e => Raise e
  end.

(** [Mon S A]: a computation over a mutable object of type [S]. *)
Definition Mon (S A : Type) : Type := S → result (A * S).

Definition ret {S A : Type} (a : A) : Mon S A := λ s, Ok (a, s).

Definition bind {S A B : Type} (m : Mon S A) (k : A → Mon S B) : Mon S B :=
  λ s, match m s with
       | Ok (a, s') => k a s'
       | Raise e => Raise e
       end.

Definition raise {S A : Type} (e : exn) : Mon S A := λ _, Raise e.

Notation "'let*' x ':=' m 'in' k" := (bind m (λ x, k))
  (at level 10, x name, m at level 200, k at level 200,
   format "'[v' 'let*'  x  :=  m  'in'  '/' k ']'").

(** [for x in l: body], with the locals the body assigns carried in [b]. *)
Fixpoint for_fold {S A B : Type} (l : list A) (b : B) (body : A → B → Mon S B)
  : Mon S B :=
  match l with
  | [] => ret b
  | x :: l' => let* b' := body x b in for_fold l' b' body
  end.

Definition for_each {S A : Type} (l : list A) (body : A → Mon S unit) : Mon S unit :=
  for_fold l tt (λ x _, body x).

(** [range(lo, hi)] *)
Definition range (lo hi : nat) : list nat := seq lo (hi - lo).

(** [enumerate(l)] *)
Fixpoint enumerate_from {A : Type} (i : nat) (l : list A) : list (nat * A) :=
  match l with
  | [] => []
  | x :: l' => (i, x) :: enumerate_from (S i) l'
  end.
Definition enumerate {A : Type} (l : list A) : list (nat * A) := enumerate_from 0 l.

(** ** Strings: [str.split()] and [str.lower()] on ASCII text *)

Definition is_space (c : ascii) : bool :=
  let n := nat_of_ascii c in
  ((9 <=? n) && (n <=? 13)) || ((28 <=? n) && (n <=? 32)).

Definition flush (cur : string) (rest : list string) : list string :=
  match cur with
  | EmptyString => rest
  | _ => cur :: rest
  end.

(** [split_from cur s]: the words of [s], the first one prefixed by the
    characters [cur] already read. *)
Fixpoint split_from (cur : string) (s : string) : list string :=
  match s with
  | EmptyString => flush cur []
  | String c s' =>
      if is_space c then flush cur (split_from EmptyString s')
      else split_from (cur ++ String c EmptyString) s'
  end.

(** [s.split()]: the maximal runs of non-whitespace characters. *)
Definition split (s : string) : list string := split_from EmptyString s.

Definition lower_ascii (c : ascii) : ascii :=
  let n := nat_of_ascii c in
  if (65 <=? n) && (n <=? 90) then ascii_of_nat (n + 32) else c.

Fixpoint lower (s : string) : string :=
  match s with
  | EmptyString => EmptyString
  | String c s' => String (lower_ascii c) (lower s')
  end.

(** ** The array behind [_CBSMatrix]

    [np.zeros((1, n, n, v), dtype=np.uint8)]: the leading axis has size 1
    and every access in the module indexes it with 0, so the model keeps
    the axes [from_state], [to_state] and token.  A write outside the
    shape raises [IndexError], as numpy does. *)

Abbreviation ndarray := (list (list (list Z))).

Definition zeros (n v : nat) : ndarray :=
  replicate n (replicate n (replicate v 0%Z)).

(** [a[0, i, j, k]] *)
Definition nd_get (a : ndarray) (i j k : nat) : option Z :=
  row ← a !! i; cell ← row !! j; cell !! k.

(** [a[0, i, j, k] = x] *)
Definition nd_set (a : ndarray) (i j k : nat) (x : Z) : result ndarray :=
  match a !! i with
  | Some row =>
      match row !! j with
      | Some cell =>
          if decide (k < length cell)
          then Ok (<[i := <[j := <[k := x]> cell]> row]> a)
          else Raise IndexError
      | None => Raise IndexError
      end
  | None => Raise IndexError
  end.

(** [a[0, i, j, :] = x] *)
Definition nd_fill (a : ndarray) (i j : nat) (x : Z) : result ndarray :=
  match a !! i with
  | Some row =>
      match row !! j with
      | Some cell => Ok (<[i := <[j := replicate (length cell) x]> row]> a)
      | None => Raise IndexError
      end
  | None => Raise IndexError
  end.

(** ** [class _CBSMatrix] *)

Record _CBSMatrix : Type := {
  _matrix : option ndarray;
  vocab_size : nat;
}.

(** [_CBSMatrix(vocab_size)] *)
Definition _CBSMatrix_new (vocab_size : nat) : _CBSMatrix :=
  {| _matrix := None; vocab_size := vocab_size |}.

Definition init_matrix (state_size : nat) : Mon _CBSMatrix unit :=
  λ self, Ok (tt, {| _matrix := Some (zeros state_size (vocab_size self));
                     vocab_size := vocab_size self |}).

(** The body of [for w_index in w_group]. *)
Fixpoint add_connect_loop (from_state to_state : nat) (w_group : list nat)
    (a : ndarray) : result ndarray :=
  match w_group with
  | [] => Ok a
  | w_index :: rest =>
      a1 ← nd_set a from_state to_state w_index 1%Z;
      a2 ← nd_set a1 from_state from_state w_index 0%Z;
      add_connect_loop from_state to_state rest a2
  end.

Definition add_connect (from_state to_state : nat) (w_group : list nat)
  : Mon _CBSMatrix unit :=
  λ self,
    match _matrix self with
    | None => Raise AssertionError
    | Some a =>
        a' ← add_connect_loop from_state to_state w_group a;
        Ok (tt, {| _matrix := Some a'; vocab_size := vocab_size self |})
    end.

Definition init_row (state_index : nat) : Mon _CBSMatrix unit :=
  λ self,
    match _matrix self with
    | None => Raise AssertionError
    | Some a =>
        a' ← nd_fill a state_index state_index 1%Z;
        Ok (tt, {| _matrix := Some a'; vocab_size := vocab_size self |})
    end.

(** The [matrix] property. *)
Definition matrix : Mon _CBSMatrix (option ndarray) :=
  λ self, Ok (_matrix self, self).

(** ** External collaborators

    allennlp's [Vocabulary] is not part of the repository; the module uses
    two of its methods.  [get_token_index] answers the index of
    ["@@UNKNOWN@@"] for a word it does not know. *)

Record Vocabulary : Type := {
  get_token_index : string → nat;
  get_vocab_size : nat;
}.

(** One [add_connect] call: [(from_state, to_state, w_group)]. *)
Abbreviation connect_call := (nat * nat * list nat)%type.

(** [l[i]] on a Python list. *)
Definition getitem {S A : Type} (l : list A) (i : nat) : Mon S A :=
  match l !! i with
  | Some x => ret x
  | None => raise IndexError
  end.

(** ** [class CBSConstraint] *)

Module CBSConstraint.

Definition replacements : gmap string string :=
  {[ "band-aid" := "bandaid";
     "wood-burning stove" := "wood burning stove";
     "kitchen & dining room table" := "table";
     "salt and pepper shakers" := "salt and pepper";
     "power plugs and sockets" := "power plugs";
     "luggage and bags" := "luggage" ]}.

(** The attributes [__init__] sets and [get_state_matrix] only reads.
    [self.M], which [get_state_matrix] mutates, is the [heap_M] of the
    heap below. *)
Record t : Type := {
  topk : nat;
  _vocabulary : Vocabulary;
  _pad_index : nat;
  oi_class_list : list string;
  oi_word_form : gmap string (list string);
}.

(** [__init__], from the tables it loads from its three files. *)
Definition __init__ (oi_class_list : list string)
    (oi_word_form : gmap string (list string)) (vocabulary : Vocabulary)
    (topk : nat) : t * _CBSMatrix :=
  ({| topk := topk;
      _vocabulary := vocabulary;
      _pad_index := get_token_index vocabulary "@@UNKNOWN@@";
      oi_class_list := oi_class_list;
      oi_word_form := oi_word_form |},
   _CBSMatrix_new (get_vocab_size vocabulary)).

(** [self.M], and the ghost list of the [add_connect] calls made on it,
    oldest first.  No code reads [heap_calls]. *)
Record heap : Type := {
  heap_M : _CBSMatrix;
  heap_calls : list connect_call;
}.

Definition on_M {A : Type} (m : Mon _CBSMatrix A) : Mon heap A :=
  λ h, match m (heap_M h) with
       | Ok (a, M') => Ok (a, {| heap_M := M'; heap_calls := heap_calls h |})
       | Raise e => Raise e
       end.

(** [self.M.add_connect(from_state, to_state, w_group)] *)
Definition M_add_connect (from_state to_state : nat) (w_group : list nat)
  : Mon heap unit :=
  λ h, match add_connect from_state to_state w_group (heap_M h) with
       | Ok (_, M') =>
           Ok (tt, {| heap_M := M';
                      heap_calls := (heap_calls h ++ [(from_state, to_state, w_group)])%list |})
       | Raise e => Raise e
       end.

Definition level_mapping : list (gmap nat nat) :=
  [ {[ 3 := 5; 2 := 6 ]}; {[ 1 := 6; 3 := 4 ]}; {[ 1 := 5; 2 := 4 ]} ].

Section methods.
Variable self : t.

Definition get_word_set (target : string) : list nat :=
  let group_w :=
    match oi_word_form self !! target with
    | Some forms => forms
    | None => [target]
    end in
  let group_w := map (get_token_index (_vocabulary self)) group_w in
  filter (λ v, v ≠ _pad_index self) group_w.

(** Lines 169-175: the candidate texts of the ranked detections.
    [anns] holds the class index of each annotation left after
    [suppress_parts] and [nms], by decreasing score. *)
Fixpoint candidates_loop (anns : list nat) (candidates : list string)
  : result (list string) :=
  match anns with
  | [] => Ok candidates
  | cls_idx :: rest =>
      match oi_class_list self !! cls_idx with
      | None => Raise IndexError
      | Some name =>
          let text := lower name in
          let text := default text (replacements !! text) in
          let candidates :=
            if decide (text ∈ candidates) then candidates
            else (candidates ++ [text])%list in
          candidates_loop rest candidates
      end
  end.

Definition candidates_of (anns : list nat) : result (list string) :=
  candidates_loop (take (topk self) anns) [].

(** The body of [for i, target in enumerate(candidates)]; it carries
    [start_additional_index]. *)
Definition candidate_body (i : nat) (target : string)
    (start_additional_index : nat) : Mon heap nat :=
  let word_list := split target in
  match word_list with
  | [_] =>
      let group_w := get_word_set target in
      let* _ := M_add_connect 0 (i + 1) group_w in
      let* _ := M_add_connect (i + 4) 7 group_w in
      let* mapping := getitem level_mapping i in
      let* _ := for_each (range 1 4) (λ j,
        match mapping !! j with
        | Some to_state => M_add_connect j to_state group_w
        | None => ret tt
        end) in
      ret start_additional_index
  | [s1; s2] =>
      let group_s1 := get_word_set s1 in
      let group_s2 := get_word_set s2 in
      let* _ := M_add_connect 0 start_additional_index group_s1 in
      let* _ := M_add_connect start_additional_index (i + 1) group_s2 in
      let start_additional_index := start_additional_index + 1 in
      let* _ := M_add_connect (i + 4) start_additional_index group_s1 in
      let* _ := M_add_connect start_additional_index 7 group_s2 in
      let start_additional_index := start_additional_index + 1 in
      let* mapping := getitem level_mapping i in
      for_fold (range 1 4) start_additional_index (λ j start_additional_index,
        match mapping !! j with
        | Some to_state =>
            let* _ := M_add_connect j start_additional_index group_s1 in
            let* _ := M_add_connect start_additional_index to_state group_s2 in
            ret (start_additional_index + 1)
        | None => ret start_additional_index
        end)
  | [s1; s2; s3] =>
      let group_s1 := get_word_set s1 in
      let group_s2 := get_word_set s2 in
      let group_s3 := get_word_set s3 in
      let* _ := M_add_connect 0 start_additional_index group_s1 in
      let* _ := M_add_connect start_additional_index (start_additional_index + 1) group_s2 in
      let* _ := M_add_connect (start_additional_index + 1) (i + 1) group_s3 in
      let start_additional_index := start_additional_index + 2 in
      let* _ := M_add_connect (i + 4) start_additional_index group_s1 in
      let* _ := M_add_connect start_additional_index (start_additional_index + 1) group_s2 in
      let* _ := M_add_connect (start_additional_index + 1) 7 group_s3 in
      let start_additional_index := start_additional_index + 2 in
      let* mapping := getitem level_mapping i in
      for_fold (range 1 4) start_additional_index (λ j start_additional_index,
        match mapping !! j with
        | Some to_state =>
            let* _ := M_add_connect j start_additional_index group_s1 in
            let* _ := M_add_connect start_additional_index (start_additional_index + 1) group_s2 in
            let* _ := M_add_connect (start_additional_index + 1) to_state group_s3 in
            ret (start_additional_index + 2)
        | None => ret start_additional_index
        end)
  | _ => ret start_additional_index
  end.

(** Lines 177-241: the automaton of a candidate list. *)
Definition build (candidates : list string)
  : Mon heap (option ndarray * nat * nat) :=
  let* _ := on_M (init_matrix 26) in
  let* _ := for_each (range 0 26) (λ i, on_M (init_row i)) in
  let start_additional_index := 8 in
  let* start_additional_index :=
    for_fold (enumerate candidates) start_additional_index
      (λ '(i, target) start_additional_index,
         candidate_body i target start_additional_index) in
  let* m := on_M matrix in
  ret (m, start_additional_index, length candidates).

(** [get_state_matrix], from the ranked annotations of the image. *)
Definition get_state_matrix (anns : list nat)
  : Mon heap (option ndarray * nat * nat) :=
  match candidates_of anns with
  | Ok candidates => build candidates
  | Raise e => raise e
  end.

End methods.

End CBSConstraint.

(** ** [class FreeConstraint] *)

Module FreeConstraint.

(** [__init__]: [self.M] is the whole object. *)
Definition __init__ (output_size : nat) : _CBSMatrix := _CBSMatrix_new output_size.

Definition get_state_matrix : Mon _CBSMatrix (option ndarray * nat * nat) :=
  let* _ := init_matrix 1 in
  let* _ := init_row 0 in
  let* m := matrix in
  ret (m, 1, 0).

End FreeConstraint.

(** ** A small vocabulary for the worked examples *)

Module Demo.

Definition words : list string :=
  [ "@@PADDING@@"; "@@UNKNOWN@@"; "dog"; "frisbee"; "wood"; "burning"; "stove";
    "dogs"; "cat"; "chest"; "of"; "drawers"; "salt"; "and"; "pepper" ].

Fixpoint index_of (w : string) (l : list string) (i : nat) : option nat :=
  match l with
  | [] => None
  | x :: l' => if decide (x = w) then Some i else index_of w l' (S i)
  end.

Definition vocabulary : Vocabulary :=
  {| get_token_index := λ w, default 1 (index_of w words 0);
     get_vocab_size := length words |}.

Definition oi_class_list : list string :=
  [ "__background__"; "Dog"; "Frisbee"; "Wood-burning stove"; "Cat";
    "Chest of drawers"; "Salt and pepper shakers" ].

Definition oi_word_form : gmap string (list string) :=
  {[ "dog" := ["dog"; "dogs"] ]}.

Definition self : CBSConstraint.t :=
  (CBSConstraint.__init__ oi_class_list oi_word_form vocabulary 3).1.

Definition heap0 : CBSConstraint.heap :=
  {| CBSConstraint.heap_M :=
       (CBSConstraint.__init__ oi_class_list oi_word_form vocabulary 3).2;
     CBSConstraint.heap_calls := [] |}.

End Demo.

(** ** Vocabulary of the statements *)

(** The array has shape [(1, n, n, v)]. *)
Definition shape (n v : nat) (a : ndarray) : Prop :=
  length a = n ∧
  Forall (λ row : list (list Z),
            length row = n ∧ Forall (λ cell : list Z, length cell = v) row) a.

(** What one [add_connect(f, t, g)] makes of the entry [[i][j][k]] that
    held [old]: the two assignments of the loop body, in their order. *)
Definition connect_cell (f t : nat) (g : list nat) (i j k : nat)
    (old : option Z) : option Z :=
  if decide (i = f ∧ k ∈ g) then
    if decide (j = f) then Some 0%Z
    else if decide (j = t) then Some 1%Z
    else old
  else old.

(** The same after a list of calls, oldest first. *)
Definition calls_cell (cs : list connect_call) (i j k : nat) (old : option Z)
  : option Z :=
  foldl (λ o '(f, t, g), connect_cell f t g i j k o) old cs.

(** The call [add_connect(f, t, g)] writes inside the shape. *)
Definition call_in_shape (n v : nat) (c : connect_call) : Prop :=
  let '(f, t, g) := c in g = [] ∨ (f < n ∧ t < n ∧ Forall (λ w, w < v) g).

(** A list of [add_connect] calls, made in order on [self.M]. *)
Definition exec_calls (cs : list connect_call) : Mon CBSConstraint.heap unit :=
  for_each cs (λ '(f, t, g), CBSConstraint.M_add_connect f t g).

(** The calls that wire one chain from [f] to [t] for the word groups
    [gs], through the fresh states [s], [s + 1], ... *)
Fixpoint chain (f t : nat) (gs : list (list nat)) (s : nat) : list connect_call :=
  match gs with
  | [] => []
  | [g] => [(f, t, g)]
  | g :: gs' => (f, s, g) :: chain s t gs' (S s)
  end.

(** The ends of the four chains of candidate [i], in the order the code
    wires them. *)
Definition endpoints (i : nat) : list (nat * nat) :=
  match i with
  | 0 => [(0, 1); (4, 7); (2, 6); (3, 5)]
  | 1 => [(0, 2); (5, 7); (1, 6); (3, 4)]
  | 2 => [(0, 3); (6, 7); (1, 5); (2, 4)]
  | _ => []
  end.

(** The word groups of a candidate the loop body handles (one to three
    words); [[]] for a candidate it skips. *)
Definition word_groups (self : CBSConstraint.t) (target : string) : list (list nat) :=
  match split target with
  | [_] => [CBSConstraint.get_word_set self target]
  | [s1; s2] => [CBSConstraint.get_word_set self s1; CBSConstraint.get_word_set self s2]
  | [s1; s2; s3] =>
      [CBSConstraint.get_word_set self s1; CBSConstraint.get_word_set self s2;
       CBSConstraint.get_word_set self s3]
  | _ => []
  end.

(** The calls of candidate [i] when [start_additional_index] is [s]. *)
Definition candidate_calls (i : nat) (gs : list (list nat)) (s : nat)
  : list connect_call :=
  concat (imap (λ n '(f, t), chain f t gs (s + n * (length gs - 1))) (endpoints i)).

Definition aux_used (gs : list (list nat)) : nat := 4 * (length gs - 1).

(** The calls of the candidates [cands], the first of index [i], and the
    value of [start_additional_index] after them. *)
Fixpoint build_calls (self : CBSConstraint.t) (i : nat) (cands : list string)
    (s : nat) : list connect_call * nat :=
  match cands with
  | [] => ([], s)
  | c :: rest =>
      let gs := word_groups self c in
      let r := build_calls self (S i) rest (s + aux_used gs) in
      ((candidate_calls i gs s ++ r.1)%list, r.2)
  end.

(** Every candidate the loop body handles has an index below 3. *)
Fixpoint fits (self : CBSConstraint.t) (i : nat) (cands : list string) : Prop :=
  match cands with
  | [] => True
  | c :: rest => (word_groups self c = [] ∨ i < 3) ∧ fits self (S i) rest
  end.

(** The array right after [init_matrix(26)] and the 26 [init_row]s:
    ones on the diagonal, zeros elsewhere. *)
Definition fresh (v : nat) (a : ndarray) : Prop :=
  shape 26 v a ∧
  ∀ i j k, i < 26 → j < 26 → k < v →
    nd_get a i j k = Some (if decide (i = j) then 1%Z else 0%Z).

(** The vocabulary answers indices below the size [self.M] was made with
    ([__init__] makes it with [get_vocab_size()]). *)
Definition vocab_ok (self : CBSConstraint.t) (h : CBSConstraint.heap) : Prop :=
  ∀ w, get_token_index (CBSConstraint._vocabulary self) w
       < vocab_size (CBSConstraint.heap_M h).

(** The call does not connect a state to itself. *)
Definition no_loop (c : connect_call) : Prop := c.1.1 ≠ c.1.2.

(** ** The automaton the tensor describes

    Consuming token [t] in state [s] may lead to [s'] when
    [tensor[0, s, s', t]] is 1. *)
Definition successors (a : ndarray) (s t : nat) : list nat :=
  filter (λ s', nd_get a s s' t = Some 1%Z) (seq 0 (length a)).

(** The states a token sequence may lead to from [s]. *)
Fixpoint run_from (a : ndarray) (toks : list nat) (s : nat) : list nat :=
  match toks with
  | [] => [s]
  | t :: toks' => s' ← successors a s t; run_from a toks' s'
  end.

(** The tier-1 state of candidate [c]: the target of [add_connect(0, i + 1, _)]. *)
Definition tier1 (c : nat) : nat := c + 1.

(** The pairs [(j, mapping[j])] the loop [for j in range(1, 4)] connects
    for candidate [i]. *)
Definition tier_wiring (i : nat) : list (nat * nat) :=
  match CBSConstraint.level_mapping !! i with
  | Some mapping => omap (λ j, (λ to_state, (j, to_state)) <$> mapping !! j) (range 1 4)
  | None => []
  end.

(** The state in which all of [k] single-word candidates are satisfied. *)
Definition satisfied_state (k : nat) : nat :=
  match k with
  | 1 => 1
  | 2 => 6
  | _ => 7
  end.

(** What a caller sees of a result: state count and candidate count. *)
Definition counts {S : Type} (r : result (option ndarray * nat * nat * S))
  : option (nat * nat) :=
  match r with
  | Ok (_, n, k, _) => Some (n, k)
  | Raise _ => None
  end.

(** How many calls enter, and how many leave, state [x]. *)
Definition uses_as_target (x : nat) (cs : list connect_call) : nat :=
  length (filter (λ c : connect_call, c.1.2 = x) cs).
Definition uses_as_source (x : nat) (cs : list connect_call) : nat :=
  length (filter (λ c : connect_call, c.1.1 = x) cs).

(** The tensor and the call log of a result. *)
Definition tensor_of {S : Type} (r : result (option ndarray * nat * nat * S))
  : ndarray :=
  match r with
  | Ok (Some a, _, _, _) => a
  | _ => []
  end.

Definition heap_of (r : result (option ndarray * nat * nat * CBSConstraint.heap))
  : CBSConstraint.heap :=
  match r with
  | Ok (_, _, _, h) => h
  | Raise _ => {| CBSConstraint.heap_M := _CBSMatrix_new 0;
                  CBSConstraint.heap_calls := [] |}
  end.

(** The tier of a fixed state: how many candidates it stands for. *)
Definition tier (s : nat) : nat :=
  match s with
  | 1 | 2 | 3 => 1
  | 4 | 5 | 6 => 2
  | 7 => 3
  | _ => 0
  end.

(** ** [suppress_parts] and the tables of [CBSConstraint.__init__] *)

Definition BLACKLIST_CATEGORIES : list string :=
  [ "Tree"; "Building"; "Plant"; "Man"; "Woman"; "Person"; "Boy"; "Girl";
    "Human eye"; "Skull"; "Human head"; "Human face"; "Human mouth";
    "Human ear"; "Human nose"; "Human hair"; "Human hand"; "Human foot";
    "Human arm"; "Human leg"; "Human beard"; "Human body";
    "Vehicle registration plate"; "Wheel"; "Seat belt"; "Tire";
    "Bicycle wheel"; "Auto part"; "Door handle"; "Clothing"; "Footwear";
    "Fashion accessory"; "Sports equipment"; "Hiking equipment"; "Mammal";
    "Personal care"; "Bathroom accessory"; "Plumbing fixture"; "Land vehicle" ].

Section detections.
(** Scores are floating-point numbers; [confident score] stands for the
    comparison [score > 0.01]. *)
Context {Score : Type} (confident : Score → bool).

(** [[i for i, (cls, score) in enumerate(zip(classes, scores))
      if score > 0.01 and cls not in BLACKLIST_CATEGORIES]] *)
Definition suppress_parts (scores : list Score) (classes : list string) : list nat :=
  (λ p : nat * (string * Score), p.1)
    <$> filter (λ p : nat * (string * Score),
                  confident p.2.2 = true ∧ p.2.1 ∉ BLACKLIST_CATEGORIES)
          (enumerate (zip classes scores)).

(** The loop of [__init__] over [boxes["annotations"]], for annotations
    of any type [Ann] with their ["image_id"]. *)
Context {Ann : Type} (image_id : Ann → Z).

Definition add_box (d : gmap Z (list Ann)) (ann : Ann) : gmap Z (list Ann) :=
  let d := if decide (d !! image_id ann = None)
           then <[image_id ann := []]> d else d in
  alter (λ boxes, (boxes ++ [ann])%list) (image_id ann) d.

Definition image_id_to_boxes (annotations : list Ann) : gmap Z (list Ann) :=
  foldl add_box ∅ annotations.

End detections.

(** * Properties *)

(** ** Arrays *)

Section ndarray_facts.
Implicit Types (a : ndarray) (x : Z).

Lemma shape_zeros n v : shape n v (zeros n v).
Proof.
  split; [apply length_replicate|].
  apply Forall_replicate. split; [apply length_replicate|].
  apply Forall_replicate, length_replicate.
Qed.

Lemma shape_lookup n v a i j row cell :
  shape n v a → a !! i = Some row → row !! j = Some cell →
  length row = n ∧ length cell = v ∧ i < n ∧ j < n.
Proof.
  intros [Hlen Hall] Hi Hj.
  destruct (Forall_lookup_1 _ _ _ _ Hall Hi) as [Hrow Hcells].
  pose proof (Forall_lookup_1 _ _ _ _ Hcells Hj) as Hcell; simpl in Hcell.
  apply lookup_lt_Some in Hi, Hj. lia.
Qed.

Lemma shape_insert n v a i j row cell cell' :
  shape n v a → a !! i = Some row → row !! j = Some cell →
  length cell' = v → shape n v (<[i := <[j := cell']> row]> a).
Proof.
  intros [Hlen Hall] Hi Hj Hc.
  destruct (Forall_lookup_1 _ _ _ _ Hall Hi) as [Hrow Hcells].
  split; [by rewrite length_insert|].
  apply Forall_insert; [done|]. split; [by rewrite length_insert|].
  by apply Forall_insert.
Qed.

Lemma shape_cell n v a i j :
  shape n v a → i < n → j < n →
  ∃ row cell, a !! i = Some row ∧ row !! j = Some cell ∧ length cell = v.
Proof.
  intros Hs Hi Hj. pose proof Hs as [Hlen Hall].
  destruct (lookup_lt_is_Some_2 a i) as [row Hrow]; [lia|].
  destruct (Forall_lookup_1 _ _ _ _ Hall Hrow) as [Hr _].
  destruct (lookup_lt_is_Some_2 row j) as [cell Hcell]; [lia|].
  exists row, cell. split_and!; try done.
  by destruct (shape_lookup _ _ _ _ _ _ _ Hs Hrow Hcell) as (_ & ? & _).
Qed.

Lemma nd_get_is_Some n v a i j k :
  shape n v a → is_Some (nd_get a i j k) ↔ i < n ∧ j < n ∧ k < v.
Proof.
  intros Hs. unfold nd_get. split.
  - intros [x Hx]. simplify_option_eq.
    match goal with
    | H1 : a !! i = Some ?r, H2 : ?r !! j = Some ?c |- _ =>
        destruct (shape_lookup _ _ _ _ _ _ _ Hs H1 H2) as (? & ? & ? & ?)
    end.
    match goal with H : _ !! k = Some _ |- _ => apply lookup_lt_Some in H end.
    lia.
  - intros (Hi & Hj & Hk).
    destruct (shape_cell _ _ _ _ _ Hs Hi Hj) as (row & cell & -> & Hc & Hl).
    simpl. rewrite Hc. simpl. apply lookup_lt_is_Some_2. lia.
Qed.

Lemma nd_get_zeros n v i j k :
  i < n → j < n → k < v → nd_get (zeros n v) i j k = Some 0%Z.
Proof.
  intros Hi Hj Hk. unfold nd_get, zeros.
  rewrite lookup_replicate_2 by done. simpl.
  rewrite lookup_replicate_2 by done. simpl.
  by rewrite lookup_replicate_2.
Qed.

(** Reading after a write. *)
Lemma nd_get_set a a' i j k x i' j' k' :
  nd_set a i j k x = Ok a' →
  nd_get a' i' j' k' =
    if decide (i' = i ∧ j' = j ∧ k' = k) then Some x else nd_get a i' j' k'.
Proof.
  unfold nd_set, nd_get. intros H.
  destruct (a !! i) as [row|] eqn:Hrow; [|done].
  destruct (row !! j) as [cell|] eqn:Hcell; [|done].
  case_decide as Hk; [|done]. injection H as <-.
  pose proof (lookup_lt_Some _ _ _ Hrow) as Hi.
  pose proof (lookup_lt_Some _ _ _ Hcell) as Hj.
  destruct (decide (i' = i)) as [->|Hni].
  - rewrite list_lookup_insert_eq by done. simpl.
    destruct (decide (j' = j)) as [->|Hnj].
    + rewrite list_lookup_insert_eq by done. simpl.
      destruct (decide (k' = k)) as [->|Hnk].
      * rewrite list_lookup_insert_eq by done. by rewrite decide_True.
      * rewrite list_lookup_insert_ne by done.
        rewrite decide_False by naive_solver. by rewrite Hrow; simpl; rewrite Hcell.
    + rewrite list_lookup_insert_ne by done.
      rewrite decide_False by naive_solver. by rewrite Hrow.
  - rewrite list_lookup_insert_ne by done.
    by rewrite decide_False by naive_solver.
Qed.

Lemma nd_set_shape n v a a' i j k x :
  shape n v a → nd_set a i j k x = Ok a' → shape n v a'.
Proof.
  unfold nd_set. intros Hs H.
  destruct (a !! i) as [row|] eqn:Hrow; [|done].
  destruct (row !! j) as [cell|] eqn:Hcell; [|done].
  case_decide; [|done]. injection H as <-.
  eapply shape_insert; eauto. rewrite length_insert.
  by destruct (shape_lookup _ _ _ _ _ _ _ Hs Hrow Hcell) as (_ & ? & _).
Qed.

(** A write succeeds exactly inside the shape. *)
Lemma nd_set_Ok n v a i j k x :
  shape n v a → i < n → j < n → k < v → ∃ a', nd_set a i j k x = Ok a'.
Proof.
  intros Hs Hi Hj Hk. unfold nd_set.
  destruct (shape_cell _ _ _ _ _ Hs Hi Hj) as (row & cell & -> & -> & Hl).
  rewrite decide_True by lia. eauto.
Qed.

Lemma nd_set_Raise n v a i j k x :
  shape n v a → ¬ (i < n ∧ j < n ∧ k < v) → nd_set a i j k x = Raise IndexError.
Proof.
  intros Hs Hout. unfold nd_set.
  destruct (a !! i) as [row|] eqn:Hrow; [|done].
  destruct (row !! j) as [cell|] eqn:Hcell; [|done].
  destruct (shape_lookup _ _ _ _ _ _ _ Hs Hrow Hcell) as (? & ? & ? & ?).
  rewrite decide_False by lia. done.
Qed.

Lemma nd_fill_spec n v a i j x :
  shape n v a → i < n → j < n →
  ∃ a', nd_fill a i j x = Ok a' ∧ shape n v a' ∧
    ∀ i' j' k',
      nd_get a' i' j' k' =
        if decide (i' = i ∧ j' = j ∧ k' < v) then Some x
        else nd_get a i' j' k'.
Proof.
  intros Hs Hi Hj. unfold nd_fill.
  destruct (shape_cell _ _ _ _ _ Hs Hi Hj) as (row & cell & Hrow & Hcell & Hl).
  rewrite Hrow, Hcell, Hl. eexists. split; [done|]. split.
  { eapply shape_insert; eauto. apply length_replicate. }
  intros i' j' k'. unfold nd_get.
  pose proof (lookup_lt_Some _ _ _ Hrow). pose proof (lookup_lt_Some _ _ _ Hcell).
  destruct (decide (i' = i)) as [->|Hni].
  - rewrite list_lookup_insert_eq by done. simpl.
    destruct (decide (j' = j)) as [->|Hnj].
    + rewrite list_lookup_insert_eq by done. simpl.
      case_decide as Hd.
      * apply lookup_replicate_2. lia.
      * rewrite Hrow; simpl; rewrite Hcell; simpl.
        rewrite !lookup_ge_None_2; [done| |]; rewrite ?length_replicate; lia.
    + rewrite list_lookup_insert_ne by done.
      rewrite decide_False by naive_solver. by rewrite Hrow.
  - rewrite list_lookup_insert_ne by done.
    by rewrite decide_False by naive_solver.
Qed.

End ndarray_facts.

(** ** [_CBSMatrix.add_connect] *)

Section add_connect_facts.
Implicit Types (a : ndarray) (g : list nat).

Lemma connect_cell_nil f t i j k old : connect_cell f t [] i j k old = old.
Proof. unfold connect_cell. rewrite decide_False; [done|]. set_solver. Qed.

Lemma add_connect_loop_get f t g a a' i j k :
  add_connect_loop f t g a = Ok a' →
  nd_get a' i j k = connect_cell f t g i j k (nd_get a i j k).
Proof.
  revert a. induction g as [|w ws IH]; intros a H; simpl in H.
  - injection H as <-. by rewrite connect_cell_nil.
  - destruct (nd_set a f t w 1) as [a1|] eqn:H1; [|done]. simpl in H.
    destruct (nd_set a1 f f w 0) as [a2|] eqn:H2; [|done]. simpl in H.
    rewrite (IH _ H), (nd_get_set _ _ _ _ _ _ i j k H2),
      (nd_get_set _ _ _ _ _ _ i j k H1).
    unfold connect_cell.
    repeat case_decide; try done; exfalso; set_solver.
Qed.

Lemma add_connect_loop_shape n v f t g a a' :
  shape n v a → add_connect_loop f t g a = Ok a' → shape n v a'.
Proof.
  revert a. induction g as [|w ws IH]; intros a Hs H; simpl in H.
  - by injection H as <-.
  - destruct (nd_set a f t w 1) as [a1|] eqn:H1; [|done]. simpl in H.
    destruct (nd_set a1 f f w 0) as [a2|] eqn:H2; [|done]. simpl in H.
    eapply IH; [|done]. eauto using nd_set_shape.
Qed.

Lemma add_connect_loop_Ok n v f t g a :
  shape n v a → call_in_shape n v (f, t, g) →
  ∃ a', add_connect_loop f t g a = Ok a'.
Proof.
  revert a. induction g as [|w ws IH]; intros a Hs Hc; simpl; [eauto|].
  destruct Hc as [?|(Hf & Ht & Hg)]; [done|].
  apply Forall_cons in Hg as [Hw Hws].
  destruct (nd_set_Ok n v a f t w 1%Z) as [a1 H1]; [done..|].
  destruct (nd_set_Ok n v a1 f f w 0%Z) as [a2 H2];
    [by eapply nd_set_shape|done..|].
  rewrite H1; simpl. rewrite H2; simpl.
  apply IH; [eauto using nd_set_shape|]. right. done.
Qed.

Lemma add_connect_loop_Raise n v f t g a :
  shape n v a → ¬ call_in_shape n v (f, t, g) →
  add_connect_loop f t g a = Raise IndexError.
Proof.
  revert a. induction g as [|w ws IH]; intros a Hs Hc; simpl.
  { destruct Hc. by left. }
  destruct (decide (f < n ∧ t < n ∧ w < v)) as [(Hf & Ht & Hw)|Hout].
  - destruct (nd_set_Ok n v a f t w 1%Z) as [a1 H1]; [done..|].
    destruct (nd_set_Ok n v a1 f f w 0%Z) as [a2 H2];
      [by eapply nd_set_shape|done..|].
    rewrite H1; simpl. rewrite H2; simpl.
    apply IH; [eauto using nd_set_shape|].
    intros [->|(_ & _ & Hws)]; apply Hc; right; split_and!; try done.
    + by apply Forall_cons.
    + by apply Forall_cons.
  - destruct (decide (f < n)) as [Hf|Hf].
    + rewrite (nd_set_Raise n v) by (try done; lia). done.
    + rewrite (nd_set_Raise n v) by (try done; lia). done.
Qed.

Lemma add_connect_unallocated f t g vs :
  add_connect f t g (_CBSMatrix_new vs) = Raise AssertionError.
Proof. reflexivity. Qed.

Lemma init_row_unallocated s vs :
  init_row s (_CBSMatrix_new vs) = Raise AssertionError.
Proof. reflexivity. Qed.

End add_connect_facts.

(** ** Lists of [add_connect] calls on the heap *)

Section exec_calls_facts.
Import CBSConstraint.
Implicit Types (h : heap) (cs : list connect_call).

#[global] Instance call_in_shape_dec n v c : Decision (call_in_shape n v c).
Proof. destruct c as [[f t] g]. unfold call_in_shape. apply _. Defined.

Lemma calls_cell_cons f t g cs i j k old :
  calls_cell ((f, t, g) :: cs) i j k old
  = calls_cell cs i j k (connect_cell f t g i j k old).
Proof. reflexivity. Qed.

Lemma calls_cell_app cs cs' i j k old :
  calls_cell (cs ++ cs') i j k old = calls_cell cs' i j k (calls_cell cs i j k old).
Proof. unfold calls_cell. apply foldl_app. Qed.

Lemma exec_calls_nil h : exec_calls [] h = Ok (tt, h).
Proof. reflexivity. Qed.

Lemma exec_calls_cons f t g cs h :
  exec_calls ((f, t, g) :: cs) h
  = (let* _ := M_add_connect f t g in exec_calls cs) h.
Proof.
  unfold exec_calls, for_each. cbn [for_fold]. unfold bind.
  by destruct (M_add_connect f t g h) as [[[] h1]|].
Qed.

Lemma exec_calls_app cs cs' h :
  exec_calls (cs ++ cs') h = (let* _ := exec_calls cs in exec_calls cs') h.
Proof.
  revert h. induction cs as [|[[f t] g] cs IH]; intros h.
  - reflexivity.
  - rewrite <- app_comm_cons. unfold bind at 1. rewrite !exec_calls_cons.
    unfold bind.
    destruct (M_add_connect f t g h) as [[[] h1]|]; [|done].
    rewrite IH. reflexivity.
Qed.

Lemma M_add_connect_inv f t g h h' a :
  M_add_connect f t g h = Ok (tt, h') → _matrix (heap_M h) = Some a →
  ∃ a', add_connect_loop f t g a = Ok a' ∧
    _matrix (heap_M h') = Some a' ∧
    vocab_size (heap_M h') = vocab_size (heap_M h) ∧
    heap_calls h' = (heap_calls h ++ [(f, t, g)])%list.
Proof.
  unfold M_add_connect, add_connect. intros H Ha. rewrite Ha in H.
  destruct (add_connect_loop f t g a) as [a'|]; [|done].
  simpl in H. injection H as <-. eauto.
Qed.

Lemma exec_calls_inv n v cs h h' a :
  exec_calls cs h = Ok (tt, h') → _matrix (heap_M h) = Some a →
  ∃ a', _matrix (heap_M h') = Some a' ∧
    vocab_size (heap_M h') = vocab_size (heap_M h) ∧
    heap_calls h' = (heap_calls h ++ cs)%list ∧
    (∀ i j k, nd_get a' i j k = calls_cell cs i j k (nd_get a i j k)) ∧
    (shape n v a → shape n v a' ∧ Forall (call_in_shape n v) cs).
Proof.
  revert h a. induction cs as [|[[f t] g] cs IH]; intros h a H Ha.
  - injection H as <-. exists a. rewrite app_nil_r. by split_and!.
  - rewrite exec_calls_cons in H. unfold bind in H.
    destruct (M_add_connect f t g h) as [[[] h1]|] eqn:H1; [|done].
    destruct (M_add_connect_inv _ _ _ _ _ _ H1 Ha) as (a1 & Hl & Ha1 & Hv & Hc).
    destruct (IH _ _ H Ha1) as (a' & Ha' & Hv' & Hc' & Hget & Hsh).
    exists a'. split_and!; [done|congruence| | |].
    + rewrite Hc', Hc, <- app_assoc. done.
    + intros i j k. rewrite Hget, calls_cell_cons.
      by rewrite (add_connect_loop_get _ _ _ _ _ i j k Hl).
    + intros Hs. destruct Hsh as [Hs' Hall]; [by eapply add_connect_loop_shape|].
      split; [done|]. apply Forall_cons. split; [|done].
      destruct (decide (call_in_shape n v (f, t, g))) as [|Hno]; [done|].
      rewrite (add_connect_loop_Raise n v) in Hl; done.
Qed.

Lemma exec_calls_Ok n v cs h a :
  _matrix (heap_M h) = Some a → shape n v a →
  Forall (call_in_shape n v) cs → ∃ h', exec_calls cs h = Ok (tt, h').
Proof.
  revert h a. induction cs as [|[[f t] g] cs IH]; intros h a Ha Hs Hall.
  - eexists. reflexivity.
  - apply Forall_cons in Hall as [Hc Hall].
    destruct (add_connect_loop_Ok n v f t g a Hs Hc) as [a1 H1].
    rewrite exec_calls_cons. unfold bind, M_add_connect, add_connect.
    rewrite Ha, H1. simpl.
    eapply IH; [reflexivity| |done]. by eapply add_connect_loop_shape.
Qed.

Lemma exec_calls_Raise n v cs h a :
  _matrix (heap_M h) = Some a → shape n v a →
  ¬ Forall (call_in_shape n v) cs → exec_calls cs h = Raise IndexError.
Proof.
  revert h a. induction cs as [|[[f t] g] cs IH]; intros h a Ha Hs Hall.
  - destruct Hall. constructor.
  - rewrite exec_calls_cons. unfold bind, M_add_connect, add_connect.
    rewrite Ha.
    destruct (decide (call_in_shape n v (f, t, g))) as [Hc|Hc].
    + destruct (add_connect_loop_Ok n v f t g a Hs Hc) as [a1 H1].
      rewrite H1. simpl.
      eapply IH; [reflexivity|by eapply add_connect_loop_shape|].
      intros Hcs. apply Hall. by constructor.
    + by rewrite (add_connect_loop_Raise n v).
Qed.

End exec_calls_facts.

(** ** The loop body and the loop of [get_state_matrix] *)

Section body_facts.
Import CBSConstraint.
Variable self : t.
Implicit Types (h : heap) (target : string).

Lemma level_mapping_lookups :
  ((({[3 := 5; 2 := 6]} : gmap nat nat) !! 1 = None ∧
    ({[3 := 5; 2 := 6]} : gmap nat nat) !! 2 = Some 6 ∧
    ({[3 := 5; 2 := 6]} : gmap nat nat) !! 3 = Some 5) ∧
   (({[1 := 6; 3 := 4]} : gmap nat nat) !! 1 = Some 6 ∧
    ({[1 := 6; 3 := 4]} : gmap nat nat) !! 2 = None ∧
    ({[1 := 6; 3 := 4]} : gmap nat nat) !! 3 = Some 4) ∧
   (({[1 := 5; 2 := 4]} : gmap nat nat) !! 1 = Some 5 ∧
    ({[1 := 5; 2 := 4]} : gmap nat nat) !! 2 = Some 4 ∧
    ({[1 := 5; 2 := 4]} : gmap nat nat) !! 3 = None)).
Proof. by vm_compute. Qed.

Ltac norm_nat := repeat (rewrite Nat.add_succ_r || rewrite Nat.add_0_r).

Ltac use_mapping :=
  let H := fresh in
  pose proof level_mapping_lookups as H;
  destruct H as ((?H & ?H & ?H) & (?H & ?H & ?H) & (?H & ?H & ?H));
  repeat match goal with
         | H : @lookup nat nat (gmap nat nat) _ _ _ = _ |- _ => rewrite ?H; clear H
         end.

Ltac step_call :=
  match goal with
  | |- context [M_add_connect ?f ?t ?g ?h] =>
      is_var h; destruct (M_add_connect f t g h) as [[[] ?]|]
  end.

Ltac run_body :=
  cbn -[M_add_connect]; unfold bind, ret; cbn -[M_add_connect];
  use_mapping; norm_nat;
  repeat (step_call; cbn -[M_add_connect]; norm_nat; try reflexivity).

(** The loop body makes the calls of [candidate_calls] and advances
    [start_additional_index] by [aux_used]. *)
Lemma candidate_body_eq i target s h :
  word_groups self target = [] ∨ i < 3 →
  candidate_body self i target s h
  = (let* _ := exec_calls (candidate_calls i (word_groups self target) s) in
     ret (s + aux_used (word_groups self target))) h.
Proof.
  intros Hfit. unfold candidate_body, word_groups in *.
  destruct (split target) as [|w1 [|w2 [|w3 [|w4 ws]]]] eqn:Hsplit.
  - unfold candidate_calls. destruct i as [|[|[|i]]]; cbn; by norm_nat.
  - destruct Hfit as [|Hi]; [done|].
    destruct i as [|[|[|i]]]; [| | |lia]; run_body.
  - destruct Hfit as [|Hi]; [done|].
    destruct i as [|[|[|i]]]; [| | |lia]; run_body.
  - destruct Hfit as [|Hi]; [done|].
    destruct i as [|[|[|i]]]; [| | |lia]; run_body.
  - unfold candidate_calls. destruct i as [|[|[|i]]]; cbn; by norm_nat.
Qed.

(** A candidate of one to three words at index 3 or more makes the body
    raise: [level_mapping[i]] is out of range. *)
Lemma candidate_body_ge3 i target s h :
  word_groups self target ≠ [] → 3 ≤ i →
  ∃ e, candidate_body self i target s h = Raise e.
Proof.
  intros Hw Hi. unfold candidate_body, word_groups in *.
  destruct i as [|[|[|i]]]; [lia..|].
  destruct (split target) as [|w1 [|w2 [|w3 [|w4 ws]]]] eqn:Hsplit; try done;
    cbn -[M_add_connect]; unfold bind, ret; cbn -[M_add_connect];
    repeat (step_call; cbn -[M_add_connect]; eauto).
Qed.

#[global] Instance fits_dec i cands : Decision (fits self i cands).
Proof. revert i. induction cands as [|c rest IH]; intros i; simpl; apply _. Defined.

Abbreviation loop i cands s :=
  (for_fold (enumerate_from i cands) s
     (λ '(i, target) start_additional_index,
        candidate_body self i target start_additional_index)).

Lemma loop_eq cands i s h :
  fits self i cands →
  loop i cands s h
  = (let* _ := exec_calls (build_calls self i cands s).1 in
     ret (build_calls self i cands s).2) h.
Proof.
  revert i s h. induction cands as [|c rest IH]; intros i s h Hfit.
  - reflexivity.
  - destruct Hfit as [Hc Hrest].
    cbn [enumerate_from for_fold build_calls fst snd]. unfold bind at 1.
    rewrite candidate_body_eq by done. unfold bind.
    rewrite exec_calls_app. unfold bind.
    destruct (exec_calls _ h) as [[[] h1]|]; [|done].
    unfold ret at 1. rewrite IH by done. reflexivity.
Qed.

Lemma loop_unfit cands i s h :
  ¬ fits self i cands → ∃ e, loop i cands s h = Raise e.
Proof.
  revert i s h. induction cands as [|c rest IH]; intros i s h Hfit.
  - by destruct Hfit.
  - cbn [enumerate_from for_fold]. unfold bind at 1.
    destruct (decide (word_groups self c = [] ∨ i < 3)) as [Hc|Hc].
    + destruct (candidate_body self i c s h) as [[s1 h1]|]; [|eauto].
      apply IH. intros Hrest. apply Hfit. by split.
    + destruct (candidate_body_ge3 i c s h) as [e ->]; [naive_solver|lia|eauto].
Qed.

End body_facts.

(** ** Initialisation *)

Section init_facts.
Import CBSConstraint.
Implicit Types (h : heap).

Lemma init_rows n v rows h a :
  _matrix (heap_M h) = Some a → shape n v a → Forall (λ r, r < n) rows →
  ∃ h' a', for_each rows (λ i, on_M (init_row i)) h = Ok (tt, h') ∧
    _matrix (heap_M h') = Some a' ∧
    vocab_size (heap_M h') = vocab_size (heap_M h) ∧
    heap_calls h' = heap_calls h ∧
    shape n v a' ∧
    ∀ i j k, nd_get a' i j k =
      if decide (i = j ∧ i ∈ rows ∧ k < v) then Some 1%Z else nd_get a i j k.
Proof.
  revert h a. induction rows as [|r rows IH]; intros h a Ha Hs Hrows.
  - exists h, a. split_and!; try done.
    intros i j k. rewrite decide_False; [done|]. set_solver.
  - apply Forall_cons in Hrows as [Hr Hrows].
    destruct (nd_fill_spec n v a r r 1%Z Hs Hr Hr) as (a1 & Hfill & Hs1 & Hget1).
    set (h1 := {| heap_M := {| _matrix := Some a1;
                               vocab_size := vocab_size (heap_M h) |};
                  heap_calls := heap_calls h |}).
    assert (Hstep : on_M (init_row r) h = Ok (tt, h1)).
    { unfold on_M, init_row. by rewrite Ha, Hfill. }
    unfold for_each. cbn [for_fold]. unfold bind. rewrite Hstep.
    destruct (IH h1 a1 eq_refl Hs1 Hrows)
      as (h' & a' & Hrun & Ha' & Hv & Hc & Hs' & Hget).
    unfold for_each in Hrun. rewrite Hrun.
    exists h', a'. split_and!; try done.
    intros i j k. rewrite Hget, Hget1.
    repeat case_decide; try done; exfalso; set_solver.
Qed.

Lemma init_matrix_then {A : Type} (m : Mon heap A) h :
  (let* _ := on_M (init_matrix 26) in m) h
  = m {| heap_M := {| _matrix := Some (zeros 26 (vocab_size (heap_M h)));
                      vocab_size := vocab_size (heap_M h) |};
         heap_calls := heap_calls h |}.
Proof. reflexivity. Qed.

Lemma build_init h :
  ∃ h1 a0,
    (let* _ := on_M (init_matrix 26) in
     for_each (range 0 26) (λ i, on_M (init_row i))) h = Ok (tt, h1) ∧
    _matrix (heap_M h1) = Some a0 ∧
    vocab_size (heap_M h1) = vocab_size (heap_M h) ∧
    heap_calls h1 = heap_calls h ∧
    fresh (vocab_size (heap_M h)) a0.
Proof.
  rewrite init_matrix_then.
  set (h0 := {| heap_M := {| _matrix := Some (zeros 26 (vocab_size (heap_M h)));
                             vocab_size := vocab_size (heap_M h) |};
                heap_calls := heap_calls h |}).
  destruct (init_rows 26 (vocab_size (heap_M h)) (range 0 26) h0
              (zeros 26 (vocab_size (heap_M h))) eq_refl)
    as (h1 & a0 & Hrun & Ha0 & Hv & Hc & Hs & Hget);
    [apply shape_zeros| |].
  { unfold range. apply Forall_forall. intros r Hr%elem_of_seq. lia. }
  exists h1, a0.
  split; [exact Hrun|]. split; [exact Ha0|]. split; [exact Hv|].
  split; [exact Hc|]. split; [exact Hs|].
  intros i j k Hi Hj Hk. rewrite Hget.
  rewrite nd_get_zeros by assumption.
  destruct (decide (i = j)) as [->|Hne].
  - rewrite decide_True; [reflexivity|].
    split; [reflexivity|]. split; [|assumption].
    unfold range. apply elem_of_seq. lia.
  - rewrite decide_False; [reflexivity|]. intros [? _]. contradiction.
Qed.

End init_facts.

(** ** [build]: the whole of lines 177-241 *)

Section build_facts.
Import CBSConstraint.
Variable self : t.
Implicit Types (h : heap) (cands : list string).

Lemma build_unfold cands h :
  build self cands h
  = match (let* _ := on_M (init_matrix 26) in
           for_each (range 0 26) (λ i, on_M (init_row i))) h with
    | Ok (_, h1) =>
        (let* s := for_fold (enumerate cands) 8
                     (λ '(i, target) start_additional_index,
                        candidate_body self i target start_additional_index) in
         let* m := on_M matrix in
         ret (m, s, length cands)) h1
    | Raise e => Raise e
    end.
Proof. reflexivity. Qed.

(** What a successful [build] returns and leaves in the heap. *)
Lemma build_inv cands h m n k h' :
  build self cands h = Ok ((m, n, k), h') →
  ∃ a0 a,
    fresh (vocab_size (heap_M h)) a0 ∧
    m = Some a ∧ _matrix (heap_M h') = Some a ∧
    shape 26 (vocab_size (heap_M h)) a ∧
    fits self 0 cands ∧
    n = (build_calls self 0 cands 8).2 ∧
    k = length cands ∧
    heap_calls h' = (heap_calls h ++ (build_calls self 0 cands 8).1)%list ∧
    Forall (call_in_shape 26 (vocab_size (heap_M h))) (build_calls self 0 cands 8).1 ∧
    ∀ i j t, nd_get a i j t
             = calls_cell (build_calls self 0 cands 8).1 i j t (nd_get a0 i j t).
Proof.
  rewrite build_unfold.
  destruct (build_init h) as (h1 & a0 & -> & Ha0 & Hv & Hc & Hfresh).
  unfold bind at 1. unfold enumerate.
  destruct (decide (fits self 0 cands)) as [Hfit|Hfit].
  - rewrite loop_eq by done. unfold bind at 1.
    destruct (exec_calls _ h1) as [[[] h2]|] eqn:Hrun; [|done].
    destruct (exec_calls_inv 26 (vocab_size (heap_M h)) _ _ _ _ Hrun Ha0)
      as (a & Ha & Hv2 & Hc2 & Hget & Hsh).
    destruct Hsh as [Hs Hall]; [apply Hfresh|].
    unfold ret at 1. unfold bind, on_M, matrix, ret. intros [= <- <- <- <-].
    exists a0, a. simpl. split_and!; try done. by rewrite Hc2, Hc.
  - destruct (loop_unfit self cands 0 8 h1 Hfit) as [e ->]. done.
Qed.

(** [build] succeeds when every handled candidate has an index below 3
    and every call stays inside the 26 states and the vocabulary. *)
Lemma build_Ok cands h :
  fits self 0 cands →
  Forall (call_in_shape 26 (vocab_size (heap_M h))) (build_calls self 0 cands 8).1 →
  ∃ a h', build self cands h
          = Ok ((Some a, (build_calls self 0 cands 8).2, length cands), h').
Proof.
  intros Hfit Hall. rewrite build_unfold.
  destruct (build_init h) as (h1 & a0 & -> & Ha0 & Hv & Hc & Hfresh).
  unfold bind at 1. unfold enumerate. rewrite loop_eq by done. unfold bind at 1.
  destruct (exec_calls_Ok 26 (vocab_size (heap_M h))
              (build_calls self 0 cands 8).1 h1 a0 Ha0) as [h2 Hrun];
    [apply Hfresh|done|].
  rewrite Hrun.
  destruct (exec_calls_inv 26 (vocab_size (heap_M h)) _ _ _ _ Hrun Ha0)
    as (a & Ha & _).
  unfold ret at 1. unfold bind, on_M, matrix, ret. rewrite Ha. eauto.
Qed.

(** A call outside the 26 states or the vocabulary makes it raise
    [IndexError]. *)
Lemma build_Raise_shape cands h :
  fits self 0 cands →
  ¬ Forall (call_in_shape 26 (vocab_size (heap_M h))) (build_calls self 0 cands 8).1 →
  build self cands h = Raise IndexError.
Proof.
  intros Hfit Hall. rewrite build_unfold.
  destruct (build_init h) as (h1 & a0 & -> & Ha0 & Hv & Hc & Hfresh).
  unfold bind at 1. unfold enumerate. rewrite loop_eq by done. unfold bind at 1.
  rewrite (exec_calls_Raise 26 (vocab_size (heap_M h)) _ h1 a0); try done.
  apply Hfresh.
Qed.

Lemma build_Raise_unfit cands h :
  ¬ fits self 0 cands → ∃ e, build self cands h = Raise e.
Proof.
  intros Hfit. rewrite build_unfold.
  destruct (build_init h) as (h1 & a0 & -> & Ha0 & Hv & Hc & Hfresh).
  unfold bind at 1. unfold enumerate.
  destruct (loop_unfit self cands 0 8 h1 Hfit) as [e ->]. eauto.
Qed.

End build_facts.


(** ** Entries after a list of calls *)

Section calls_cell_facts.
Implicit Types (cs : list connect_call) (old : option Z).

(** An entry off the diagonal that holds 1 keeps it. *)
Lemma calls_cell_keep_one cs i j k :
  i ≠ j → calls_cell cs i j k (Some 1%Z) = Some 1%Z.
Proof.
  intros Hij. induction cs as [|[[f t] g] cs IH]; [done|].
  rewrite calls_cell_cons. unfold connect_cell.
  repeat case_decide; try done; naive_solver.
Qed.

(** A diagonal entry that holds 0 keeps it. *)
Lemma calls_cell_keep_zero cs i k : calls_cell cs i i k (Some 0%Z) = Some 0%Z.
Proof.
  induction cs as [|[[f t] g] cs IH]; [done|].
  rewrite calls_cell_cons. unfold connect_cell.
  repeat case_decide; try done; naive_solver.
Qed.

(** A call sets its entry, for good. *)
Lemma calls_cell_set cs f t g k old :
  (f, t, g) ∈ cs → k ∈ g → f ≠ t → calls_cell cs f t k old = Some 1%Z.
Proof.
  intros Hin Hk Hft. revert old.
  induction cs as [|[[f' t'] g'] cs IH]; intros old; [by apply elem_of_nil in Hin|].
  rewrite calls_cell_cons.
  destruct (decide ((f, t, g) ∈ cs)) as [Hcs|Hcs]; [by apply IH|].
  apply elem_of_cons in Hin as [[= <- <- <-]|]; [|done].
  unfold connect_cell at 1. rewrite decide_True by done.
  rewrite decide_False by done. rewrite decide_True by done.
  by apply calls_cell_keep_one.
Qed.

(** A call clears the self-loop of its tokens, for good. *)
Lemma calls_cell_clear cs f t g k old :
  (f, t, g) ∈ cs → k ∈ g → calls_cell cs f f k old = Some 0%Z.
Proof.
  intros Hin Hk. revert old.
  induction cs as [|[[f' t'] g'] cs IH]; intros old; [by apply elem_of_nil in Hin|].
  rewrite calls_cell_cons.
  destruct (decide ((f, t, g) ∈ cs)) as [Hcs|Hcs]; [by apply IH|].
  apply elem_of_cons in Hin as [[= <- <- <-]|]; [|done].
  unfold connect_cell at 1. rewrite decide_True by done.
  rewrite decide_True by done. apply calls_cell_keep_zero.
Qed.

(** A row no call leaves on token [k] is unchanged at [k]. *)
Lemma calls_cell_untouched cs s j k old :
  (∀ t g, (s, t, g) ∈ cs → k ∉ g) → calls_cell cs s j k old = old.
Proof.
  revert old. induction cs as [|[[f' t'] g'] cs IH]; intros old Hno; [done|].
  rewrite calls_cell_cons, IH.
  - unfold connect_cell. rewrite decide_False; [done|].
    intros [-> Hk]. apply (Hno t' g'); [apply list_elem_of_here|done].
  - intros t g Hin. apply (Hno t). by apply list_elem_of_further.
Qed.

(** An entry holds 1 only if it did before or a call set it. *)
Lemma calls_cell_one_inv cs i j k old :
  calls_cell cs i j k old = Some 1%Z →
  old = Some 1%Z ∨ ∃ g, (i, j, g) ∈ cs ∧ k ∈ g ∧ i ≠ j.
Proof.
  revert old. induction cs as [|[[f t] g] cs IH]; intros old H; [by left|].
  rewrite calls_cell_cons in H. apply IH in H as [H|(g' & Hin & Hk & Hij)].
  - unfold connect_cell in H. repeat case_decide; try done; try by left.
    right. exists g. destruct_and!. subst. split_and!; try done.
    apply list_elem_of_here.
  - right. exists g'. split_and!; try done. by apply list_elem_of_further.
Qed.

End calls_cell_facts.

(** ** Paths of the automaton *)

Section run_facts.
Implicit Types (a : ndarray) (toks : list nat).

Lemma elem_of_successors n v a s t s' :
  shape n v a → s' ∈ successors a s t ↔ nd_get a s s' t = Some 1%Z.
Proof.
  intros Hs. unfold successors. rewrite list_elem_of_filter.
  split; [naive_solver|]. intros H. split; [done|].
  apply elem_of_seq. split; [lia|]. simpl.
  assert (is_Some (nd_get a s s' t)) as Hsome by (by rewrite H).
  apply (nd_get_is_Some n v) in Hsome; [|done]. destruct Hs as [-> _]. lia.
Qed.

Lemma run_from_nil a s : s ∈ run_from a [] s.
Proof. apply list_elem_of_here. Qed.

Lemma run_from_cons n v a s t toks x :
  shape n v a →
  x ∈ run_from a (t :: toks) s
  ↔ ∃ s1, nd_get a s s1 t = Some 1%Z ∧ x ∈ run_from a toks s1.
Proof.
  intros Hs. cbn [run_from]. rewrite list_elem_of_bind.
  split; intros (s1 & H1 & H2); exists s1.
  - by rewrite <- (elem_of_successors n v).
  - by rewrite (elem_of_successors n v).
Qed.

Lemma run_from_step n v a s s1 t toks x :
  shape n v a → nd_get a s s1 t = Some 1%Z → x ∈ run_from a toks s1 →
  x ∈ run_from a (t :: toks) s.
Proof. intros Hs H1 H2. apply (run_from_cons n v); eauto. Qed.

(** A set of states closed under the transitions is never left. *)
Lemma run_from_invariant n v a (P : nat → Prop) toks s x :
  shape n v a →
  (∀ s s' t, P s → nd_get a s s' t = Some 1%Z → P s') →
  P s → x ∈ run_from a toks s → P x.
Proof.
  intros Hs Hclosed. revert s. induction toks as [|t toks IH]; intros s HP Hx.
  - by apply list_elem_of_singleton in Hx as ->.
  - apply (run_from_cons n v) in Hx as (s1 & H1 & Hx); eauto.
Qed.

(** A rank that grows by at most one per transition bounds the length of
    a path from below. *)
Lemma run_from_rank n v a (rank : nat → nat) toks s x :
  shape n v a →
  (∀ s s' t, nd_get a s s' t = Some 1%Z → rank s' ≤ rank s + 1) →
  x ∈ run_from a toks s → rank x ≤ rank s + length toks.
Proof.
  intros Hs Hrank. revert s. induction toks as [|t toks IH]; intros s Hx.
  - apply list_elem_of_singleton in Hx as ->. simpl. lia.
  - apply (run_from_cons n v) in Hx as (s1 & H1 & Hx); [|done].
    apply IH in Hx. apply Hrank in H1. simpl. lia.
Qed.

End run_facts.


(** ** The shape of the call list *)

Section chain_facts.
Implicit Types (gs : list (list nat)) (cs : list connect_call).

Lemma chain_cons2 f t g g' gs s :
  chain f t (g :: g' :: gs) s = (f, s, g) :: chain s t (g' :: gs) (S s).
Proof. reflexivity. Qed.

Lemma uses_as_target_app x cs cs' :
  uses_as_target x (cs ++ cs') = uses_as_target x cs + uses_as_target x cs'.
Proof. unfold uses_as_target. by rewrite filter_app, length_app. Qed.

Lemma uses_as_source_app x cs cs' :
  uses_as_source x (cs ++ cs') = uses_as_source x cs + uses_as_source x cs'.
Proof. unfold uses_as_source. by rewrite filter_app, length_app. Qed.

Lemma uses_as_target_cons x f t g cs :
  uses_as_target x ((f, t, g) :: cs)
  = (if decide (t = x) then 1 else 0) + uses_as_target x cs.
Proof.
  unfold uses_as_target. rewrite filter_cons. simpl. by case_decide.
Qed.

Lemma uses_as_source_cons x f t g cs :
  uses_as_source x ((f, t, g) :: cs)
  = (if decide (f = x) then 1 else 0) + uses_as_source x cs.
Proof.
  unfold uses_as_source. rewrite filter_cons. simpl. by case_decide.
Qed.

(** A chain enters its end state and each of its fresh states once. *)
Lemma chain_targets x f t gs s :
  uses_as_target x (chain f t gs s)
  = (if decide (x = t ∧ gs ≠ []) then 1 else 0)
    + (if decide (s ≤ x < s + (length gs - 1)) then 1 else 0).
Proof.
  revert f s. induction gs as [|g gs IH]; intros f s.
  - simpl. rewrite decide_False by naive_solver. rewrite decide_False by lia. done.
  - destruct gs as [|g' gs].
    + simpl. rewrite uses_as_target_cons.
      repeat case_decide; try done; try lia; naive_solver.
    + rewrite chain_cons2, uses_as_target_cons, IH. simpl length.
      repeat case_decide; try done; try lia; naive_solver lia.
Qed.

(** A chain leaves its start state and each of its fresh states once. *)
Lemma chain_sources x f t gs s :
  uses_as_source x (chain f t gs s)
  = (if decide (x = f ∧ gs ≠ []) then 1 else 0)
    + (if decide (s ≤ x < s + (length gs - 1)) then 1 else 0).
Proof.
  revert f s. induction gs as [|g gs IH]; intros f s.
  - simpl. rewrite decide_False by naive_solver. rewrite decide_False by lia. done.
  - destruct gs as [|g' gs].
    + simpl. rewrite uses_as_source_cons.
      repeat case_decide; try done; try lia; naive_solver.
    + rewrite chain_cons2, uses_as_source_cons, IH. simpl length.
      repeat case_decide; try done; try lia; naive_solver lia.
Qed.

Lemma chain_no_loop f t gs s :
  f ≠ t → f < s → t < s → Forall no_loop (chain f t gs s).
Proof.
  revert f s. induction gs as [|g gs IH]; intros f s Hft Hf Ht; [constructor|].
  destruct gs as [|g' gs].
  - repeat constructor. done.
  - rewrite chain_cons2. constructor; [unfold no_loop; simpl; lia|].
    apply IH; lia.
Qed.

Lemma candidate_calls_unfold i gs s :
  candidate_calls i gs s
  = match endpoints i with
    | [(f0, t0); (f1, t1); (f2, t2); (f3, t3)] =>
        (chain f0 t0 gs s ++ chain f1 t1 gs (s + (length gs - 1))
         ++ chain f2 t2 gs (s + 2 * (length gs - 1))
         ++ chain f3 t3 gs (s + 3 * (length gs - 1)))%list
    | _ => []
    end.
Proof.
  unfold candidate_calls.
  destruct i as [|[|[|i]]]; cbn [endpoints imap concat]; unfold compose;
    cbn beta; rewrite ?app_nil_r, ?Nat.mul_0_l, ?Nat.mul_1_l, ?Nat.add_0_r;
    reflexivity.
Qed.

End chain_facts.

Section build_calls_facts.
Import CBSConstraint.
Variable self : t.
Implicit Types (gs : list (list nat)) (cands : list string).

Lemma candidate_calls_no_loop i gs s :
  8 ≤ s → Forall no_loop (candidate_calls i gs s).
Proof.
  intros Hs. rewrite candidate_calls_unfold.
  destruct i as [|[|[|i]]]; cbn [endpoints]; [| | |constructor];
    rewrite !Forall_app; split_and!; apply chain_no_loop; lia.
Qed.

Lemma candidate_calls_targets i gs s x :
  gs = [] ∨ i < 3 → 8 ≤ s → 8 ≤ x →
  uses_as_target x (candidate_calls i gs s)
  = if decide (s ≤ x < s + aux_used gs) then 1 else 0.
Proof.
  intros Hfit Hs Hx. rewrite candidate_calls_unfold. unfold aux_used.
  destruct i as [|[|[|i]]]; cbn [endpoints].
  4: { destruct Hfit as [->|?]; [|lia]. simpl. by rewrite decide_False by lia. }
  all: rewrite !uses_as_target_app, !chain_targets;
    set (w := length gs - 1); repeat case_decide; destruct_and?; lia.
Qed.

Lemma candidate_calls_sources i gs s x :
  gs = [] ∨ i < 3 → 8 ≤ s → 8 ≤ x →
  uses_as_source x (candidate_calls i gs s)
  = if decide (s ≤ x < s + aux_used gs) then 1 else 0.
Proof.
  intros Hfit Hs Hx. rewrite candidate_calls_unfold. unfold aux_used.
  destruct i as [|[|[|i]]]; cbn [endpoints].
  4: { destruct Hfit as [->|?]; [|lia]. simpl. by rewrite decide_False by lia. }
  all: rewrite !uses_as_source_app, !chain_sources;
    set (w := length gs - 1); repeat case_decide; destruct_and?; lia.
Qed.

Lemma build_calls_mono cands i s : s ≤ (build_calls self i cands s).2.
Proof.
  revert i s. induction cands as [|c rest IH]; intros i s; simpl; [done|].
  etrans; [|apply IH]. lia.
Qed.

Lemma build_calls_no_loop cands i s :
  8 ≤ s → Forall no_loop (build_calls self i cands s).1.
Proof.
  revert i s. induction cands as [|c rest IH]; intros i s Hs; simpl; [constructor|].
  apply Forall_app. split; [by apply candidate_calls_no_loop|]. apply IH. lia.
Qed.

Lemma build_calls_targets cands i s x :
  fits self i cands → 8 ≤ s → 8 ≤ x →
  uses_as_target x (build_calls self i cands s).1
  = if decide (s ≤ x < (build_calls self i cands s).2) then 1 else 0.
Proof.
  revert i s. induction cands as [|c rest IH]; intros i s Hfit Hs Hx; simpl.
  - by rewrite decide_False by lia.
  - destruct Hfit as [Hc Hrest].
    rewrite uses_as_target_app, candidate_calls_targets, IH by (done || lia).
    pose proof (build_calls_mono rest (S i) (s + aux_used (word_groups self c))).
    repeat case_decide; lia.
Qed.

Lemma build_calls_sources cands i s x :
  fits self i cands → 8 ≤ s → 8 ≤ x →
  uses_as_source x (build_calls self i cands s).1
  = if decide (s ≤ x < (build_calls self i cands s).2) then 1 else 0.
Proof.
  revert i s. induction cands as [|c rest IH]; intros i s Hfit Hs Hx; simpl.
  - by rewrite decide_False by lia.
  - destruct Hfit as [Hc Hrest].
    rewrite uses_as_source_app, candidate_calls_sources, IH by (done || lia).
    pose proof (build_calls_mono rest (S i) (s + aux_used (word_groups self c))).
    repeat case_decide; lia.
Qed.

(** The entries of the tensor a successful [build] returns, read off its
    call list [cs]. *)
Lemma build_edges cands h a n k h' :
  build self cands h = Ok ((Some a, n, k), h') →
  shape 26 (vocab_size (heap_M h)) a ∧
  (∀ f t g w, (f, t, g) ∈ (build_calls self 0 cands 8).1 → w ∈ g →
              nd_get a f t w = Some 1%Z) ∧
  (∀ f t g w, (f, t, g) ∈ (build_calls self 0 cands 8).1 → w ∈ g →
              nd_get a f f w = Some 0%Z) ∧
  (∀ s s' w, nd_get a s s' w = Some 1%Z →
             s = s' ∨ ∃ g, (s, s', g) ∈ (build_calls self 0 cands 8).1 ∧ w ∈ g) ∧
  (∀ s w, s < 26 → w < vocab_size (heap_M h) →
          (∀ t g, (s, t, g) ∈ (build_calls self 0 cands 8).1 → w ∉ g) →
          nd_get a s s w = Some 1%Z).
Proof.
  intros H.
  destruct (build_inv self _ _ _ _ _ _ H)
    as (a0 & a' & [Hs0 Hfresh] & Ha' & _ & Hs & _ & _ & _ & _ & Hall & Hget).
  injection Ha' as <-.
  pose proof (build_calls_no_loop cands 0 8 (le_n 8)) as Hnl.
  generalize dependent ((build_calls self 0 cands 8).1). intros cs Hall Hget Hnl.
  split; [exact Hs|]. split; [|split; [|split]].
  - intros f t g w Hin Hw. rewrite Hget.
    apply (calls_cell_set cs f t g w _ Hin Hw).
    exact (proj1 (Forall_forall _ _) Hnl _ Hin).
  - intros f t g w Hin Hw. rewrite Hget.
    exact (calls_cell_clear cs f t g w _ Hin Hw).
  - intros s s' w H1. rewrite Hget in H1.
    apply calls_cell_one_inv in H1 as [H1|(g & Hin & Hw & _)];
      [|right; exists g; split; assumption].
    left. destruct (decide (s = s')) as [Heq|Hne]; [exact Heq|].
    assert (is_Some (nd_get a0 s s' w)) as Hsome by (rewrite H1; eexists; reflexivity).
    apply (nd_get_is_Some 26 (vocab_size (heap_M h))) in Hsome as (? & ? & ?);
      [|exact Hs0].
    rewrite Hfresh in H1 by assumption. rewrite decide_False in H1 by exact Hne.
    discriminate H1.
  - intros s w Hs26 Hw Hno. rewrite Hget, calls_cell_untouched by exact Hno.
    rewrite Hfresh by assumption. rewrite decide_True by reflexivity. reflexivity.
Qed.

End build_calls_facts.


(** ** Word groups and the vocabulary *)

Section vocabulary_facts.
Import CBSConstraint.

Lemma get_word_set_lt self h target :
  vocab_ok self h →
  Forall (λ w, w < vocab_size (heap_M h)) (get_word_set self target).
Proof.
  intros Hv. apply Forall_forall. intros w Hw. unfold get_word_set in Hw.
  apply list_elem_of_filter in Hw as [_ Hw].
  apply list_elem_of_In, in_map_iff in Hw as (x & <- & _). apply Hv.
Qed.

Lemma word_groups_lt self h target :
  vocab_ok self h →
  Forall (Forall (λ w, w < vocab_size (heap_M h))) (word_groups self target).
Proof.
  intros Hv. unfold word_groups.
  destruct (split target) as [|w1 [|w2 [|w3 [|w4 ws]]]];
    repeat constructor; by apply get_word_set_lt.
Qed.

Lemma index_of_lt w l i n : Demo.index_of w l i = Some n → n < i + length l.
Proof.
  revert i. induction l as [|x l IH]; intros i H; simpl in H; [done|].
  case_decide; simplify_eq; simpl; [lia|]. apply IH in H. lia.
Qed.

Lemma demo_vocab_ok : vocab_ok Demo.self Demo.heap0.
Proof.
  intros w. change (default 1 (Demo.index_of w Demo.words 0) < 15).
  destruct (Demo.index_of w Demo.words 0) as [n|] eqn:H.
  - apply index_of_lt in H. change (length Demo.words) with 15 in H.
    cbn [default from_option id]. lia.
  - cbn [default from_option id]. lia.
Qed.

Lemma get_state_matrix_inv self anns h r :
  get_state_matrix self anns h = Ok r →
  ∃ cands, candidates_of self anns = Ok cands ∧ build self cands h = Ok r.
Proof.
  unfold get_state_matrix. destruct (candidates_of self anns) as [cands|]; [eauto|done].
Qed.

End vocabulary_facts.

(** * The properties of the specification *)

Section claims.
Import CBSConstraint.

(** [build] succeeds, and logs the calls of [build_calls]. *)
Lemma build_Ok_calls self cands h :
  fits self 0 cands →
  Forall (call_in_shape 26 (vocab_size (heap_M h))) (build_calls self 0 cands 8).1 →
  ∃ a h', build self cands h
          = Ok ((Some a, (build_calls self 0 cands 8).2, length cands), h') ∧
    heap_calls h' = (heap_calls h ++ (build_calls self 0 cands 8).1)%list.
Proof.
  intros Hfit Hall. destruct (build_Ok self cands h Hfit Hall) as (a & h' & H).
  exists a, h'. split; [done|].
  by destruct (build_inv self _ _ _ _ _ _ H) as (_ & _ & _ & _ & _ & _ & _ & _ & _ & ? & _).
Qed.

Lemma in_shape_intro n v f t g :
  f < n → t < n → Forall (λ w, w < v) g → call_in_shape n v (f, t, g).
Proof. intros. right. done. Qed.

(** C10: [FreeConstraint.get_state_matrix] always returns the degenerate
    automaton: a tensor of exactly one state whose state 0 loops on every
    token, with state count 1 and candidate count 0. *)
Theorem FreeConstraint_get_state_matrix_degenerate (M : _CBSMatrix) :
  FreeConstraint.get_state_matrix M
  = Ok ((Some [[replicate (vocab_size M) 1%Z]], 1, 0),
        {| _matrix := Some [[replicate (vocab_size M) 1%Z]];
           vocab_size := vocab_size M |})
  ∧ shape 1 (vocab_size M) [[replicate (vocab_size M) 1%Z]]
  ∧ ∀ t, t < vocab_size M →
         nd_get [[replicate (vocab_size M) 1%Z]] 0 0 t = Some 1%Z.
Proof.
  split_and!.
  - unfold FreeConstraint.get_state_matrix, bind, init_matrix, init_row, matrix, ret.
    cbn. by rewrite length_replicate.
  - split; [done|]. repeat constructor. apply length_replicate.
  - intros t Ht. unfold nd_get. simpl. by apply lookup_replicate_2.
Qed.

(** C3, as stated, fails: for the empty candidate list the state count is
    8, not 1, and all 26 rows are initialised, not only row 0. *)
Lemma build_empty_counterexample :
  counts (build Demo.self [] Demo.heap0) = Some (8, 0)
  ∧ length (tensor_of (build Demo.self [] Demo.heap0)) = 26
  ∧ nd_get (tensor_of (build Demo.self [] Demo.heap0)) 25 25 0 = Some 1%Z.
Proof. by vm_compute. Qed.

(** C3, amended: for the empty candidate list [get_state_matrix] returns
    state count 8 and candidate count 0, makes no [add_connect] call, and
    its tensor has 26 states, every one of which (state 0 among them)
    loops on every token, with no other entry set. *)
Theorem build_empty self h :
  ∃ a h', build self [] h = Ok ((Some a, 8, 0), h')
    ∧ heap_calls h' = heap_calls h
    ∧ fresh (vocab_size (heap_M h)) a.
Proof.
  destruct (build_Ok_calls self [] h) as (a & h' & H & Hc); [done|constructor|].
  exists a, h'. split; [done|]. simpl in Hc. rewrite app_nil_r in Hc. split; [done|].
  destruct (build_inv self _ _ _ _ _ _ H)
    as (a0 & a' & [Hs0 Hfresh] & [= <-] & _ & Hs & _ & _ & _ & _ & _ & Hget).
  split; [done|]. intros i j k Hi Hj Hk. rewrite Hget. simpl. by apply Hfresh.
Qed.

Lemma word_groups_wood_burning_stove self :
  word_groups self "wood burning stove"
  = [get_word_set self "wood"; get_word_set self "burning";
     get_word_set self "stove"].
Proof. reflexivity. Qed.

(** C8, as stated, fails: the build of ["wood burning stove"] returns
    state count 16, not 12: it wires four chains, not two. *)
Lemma build_wood_burning_stove_counterexample :
  counts (build Demo.self ["wood burning stove"] Demo.heap0) = Some (16, 1)
  ∧ heap_calls (heap_of (build Demo.self ["wood burning stove"] Demo.heap0))
    = [(0, 8, [4]); (8, 9, [5]); (9, 1, [6]);
       (4, 10, [4]); (10, 11, [5]); (11, 7, [6]);
       (2, 12, [4]); (12, 13, [5]); (13, 6, [6]);
       (3, 14, [4]); (14, 15, [5]); (15, 5, [6])].
Proof. by vm_compute. Qed.

(** C8, amended: for ["wood burning stove"] the build wires four chains,
    each through 2 fresh auxiliary states: state 0 to state 1, state 4 to
    state 7, and the two tier-1-to-tier-2 chains of candidate 0 (state 2
    to state 6, state 3 to state 5).  It returns candidate count 1 and
    state count 8 + 8 = 16. *)
Theorem build_wood_burning_stove self h :
  vocab_ok self h →
  ∃ a h', build self ["wood burning stove"] h = Ok ((Some a, 16, 1), h')
    ∧ heap_calls h'
      = (heap_calls h ++
         chain 0 1 (word_groups self "wood burning stove") 8 ++
         chain 4 7 (word_groups self "wood burning stove") 10 ++
         chain 2 6 (word_groups self "wood burning stove") 12 ++
         chain 3 5 (word_groups self "wood burning stove") 14)%list
    ∧ chain 0 1 (word_groups self "wood burning stove") 8
      = [(0, 8, get_word_set self "wood"); (8, 9, get_word_set self "burning");
         (9, 1, get_word_set self "stove")].
Proof.
  intros Hv.
  destruct (build_Ok_calls self ["wood burning stove"] h) as (a & h' & H & Hc).
  { split; [right; lia|done]. }
  { cbn [build_calls fst snd]. rewrite app_nil_r, candidate_calls_unfold.
    rewrite word_groups_wood_burning_stove. cbn -[get_word_set].
    repeat (apply Forall_cons; split; [apply in_shape_intro; try lia; by apply get_word_set_lt|]).
    constructor. }
  exists a, h'. split; [exact H|]. split; [|reflexivity].
  rewrite Hc. cbn [build_calls fst snd]. rewrite app_nil_r, candidate_calls_unfold.
  reflexivity.
Qed.

Lemma build_wood_burning_stove_witness :
  ∃ a h', build Demo.self ["wood burning stove"] Demo.heap0 = Ok ((Some a, 16, 1), h')
    ∧ heap_calls h'
      = (heap_calls Demo.heap0 ++
         chain 0 1 (word_groups Demo.self "wood burning stove") 8 ++
         chain 4 7 (word_groups Demo.self "wood burning stove") 10 ++
         chain 2 6 (word_groups Demo.self "wood burning stove") 12 ++
         chain 3 5 (word_groups Demo.self "wood burning stove") 14)%list
    ∧ chain 0 1 (word_groups Demo.self "wood burning stove") 8
      = [(0, 8, get_word_set Demo.self "wood");
         (8, 9, get_word_set Demo.self "burning");
         (9, 1, get_word_set Demo.self "stove")].
Proof. exact (build_wood_burning_stove Demo.self Demo.heap0 demo_vocab_ok). Defined.

(** C2, as stated, fails for candidate 0: from the tier-1 state of
    candidate 2 the code goes to state 5, not 6, and from that of
    candidate 1 to state 6, not 5. *)
Lemma tier_wiring_counterexample :
  tier_wiring 0 = [(tier1 1, 6); (tier1 2, 5)]
  ∧ ((tier1 2, 6) ∉ tier_wiring 0)
  ∧ ((tier1 1, 5) ∉ tier_wiring 0).
Proof.
  split; [by vm_compute|].
  split; intros H; vm_compute in H;
    repeat (apply elem_of_cons in H as [H|H]; [discriminate H|]);
    by apply elem_of_nil in H.
Qed.

(** C2, amended: candidate 0 connects the tier-1 state of candidate 1 to
    state 6 and that of candidate 2 to state 5; candidate 1 connects the
    tier-1 state of candidate 0 to state 6 and that of candidate 2 to
    state 4; candidate 2 connects the tier-1 state of candidate 0 to
    state 5 and that of candidate 1 to state 4.  These pairs, after
    [(0, i + 1)] and [(i + 4, 7)], are the ends of the chains the loop
    body wires for candidate [i]. *)
Theorem tier_wiring_table :
  tier_wiring 0 = [(tier1 1, 6); (tier1 2, 5)]
  ∧ tier_wiring 1 = [(tier1 0, 6); (tier1 2, 4)]
  ∧ tier_wiring 2 = [(tier1 0, 5); (tier1 1, 4)]
  ∧ ∀ self i target s h,
      i < 3 →
      candidate_body self i target s h
      = (let* _ := exec_calls
           (concat (imap (λ n '(f, t),
                       chain f t (word_groups self target)
                         (s + n * (length (word_groups self target) - 1)))
                      ((0, tier1 i) :: (i + 4, 7) :: tier_wiring i))) in
         ret (s + aux_used (word_groups self target))) h.
Proof.
  split_and!; try by vm_compute.
  intros self i target s h Hi. rewrite candidate_body_eq by (by right).
  unfold candidate_calls.
  replace ((0, tier1 i) :: (i + 4, 7) :: tier_wiring i) with (endpoints i); [done|].
  destruct i as [|[|[|i]]]; [by vm_compute..|lia].
Qed.

(** C6: in the tensor [get_state_matrix] returns, every state [s] of the
    26 initialised ones keeps its self-loop [[s][s][t]] on every token
    [t] that no [add_connect] call routes out of [s]. *)
Theorem self_loop_invariant self cands h a n k h' s t :
  heap_calls h = [] →
  build self cands h = Ok ((Some a, n, k), h') →
  s < 26 → t < vocab_size (heap_M h) →
  (∀ to_state g, (s, to_state, g) ∈ heap_calls h' → t ∉ g) →
  nd_get a s s t = Some 1%Z.
Proof.
  intros Hlog H Hs Ht Hno.
  destruct (build_inv self _ _ _ _ _ _ H)
    as (_ & _ & _ & _ & _ & _ & _ & _ & _ & Hc & _).
  rewrite Hlog in Hc. simpl in Hc. rewrite Hc in Hno.
  by apply (build_edges self _ _ _ _ _ _ H).
Qed.

Ltac in_cases H :=
  repeat (apply elem_of_cons in H as [H|H]; [simplify_eq|]);
  try (by apply elem_of_nil in H).

Lemma demo_dog_frisbee :
  build Demo.self ["dog"; "frisbee"] Demo.heap0
  = Ok ((Some (tensor_of (build Demo.self ["dog"; "frisbee"] Demo.heap0)), 8, 2),
        heap_of (build Demo.self ["dog"; "frisbee"] Demo.heap0))
  ∧ heap_calls (heap_of (build Demo.self ["dog"; "frisbee"] Demo.heap0))
    = [(0, 1, [2; 7]); (4, 7, [2; 7]); (2, 6, [2; 7]); (3, 5, [2; 7]);
       (0, 2, [3]); (5, 7, [3]); (1, 6, [3]); (3, 4, [3])].
Proof. by vm_compute. Qed.

Lemma self_loop_invariant_witness :
  nd_get (tensor_of (build Demo.self ["dog"; "frisbee"] Demo.heap0)) 0 0 4 = Some 1%Z.
Proof.
  apply (self_loop_invariant Demo.self ["dog"; "frisbee"] Demo.heap0 _ 8 2
           (heap_of (build Demo.self ["dog"; "frisbee"] Demo.heap0)) 0 4).
  - reflexivity.
  - exact (proj1 demo_dog_frisbee).
  - lia.
  - simpl. lia.
  - intros to_state g Hin. rewrite (proj2 demo_dog_frisbee) in Hin.
    in_cases Hin; compute_done.
Defined.

(** C5, as stated, fails when a state is connected to itself: the entry
    is set and then cleared, so [[from][to][token]] ends false. *)
Lemma add_connect_self_counterexample :
  (let* _ := init_matrix 1 in
   let* _ := init_row 0 in
   let* _ := add_connect 0 0 [0] in
   matrix) (_CBSMatrix_new 1)
  = Ok (Some [[[0%Z]]], {| _matrix := Some [[[0%Z]]]; vocab_size := 1 |}).
Proof. reflexivity. Qed.

(** C5, amended: after a call [add_connect(from, to, tokens)] with
    [from ≠ to] that returns, [[from][to][t]] is 1 and [[from][from][t]]
    is 0 for every [t] of [tokens]; every call of a build that returns
    has [from ≠ to], and both entries are still so in the tensor the
    build returns. *)
Theorem forced_progression :
  (∀ f t g M M' w,
     f ≠ t → add_connect f t g M = Ok (tt, M') → w ∈ g →
     ∃ a', _matrix M' = Some a' ∧
           nd_get a' f t w = Some 1%Z ∧ nd_get a' f f w = Some 0%Z)
  ∧ (∀ self cands h a n k h' f t g w,
       heap_calls h = [] →
       build self cands h = Ok ((Some a, n, k), h') →
       (f, t, g) ∈ heap_calls h' → w ∈ g →
       f ≠ t ∧ nd_get a f t w = Some 1%Z ∧ nd_get a f f w = Some 0%Z).
Proof.
  split.
  - intros f t g M M' w Hft H Hw. unfold add_connect in H.
    destruct (_matrix M) as [a|]; [|done].
    destruct (add_connect_loop f t g a) as [a'|] eqn:Hl; [|done].
    simpl in H. injection H as <-. exists a'. split; [done|].
    rewrite !(add_connect_loop_get _ _ _ _ _ _ _ _ Hl). unfold connect_cell.
    split; repeat case_decide; try reflexivity; try congruence;
      exfalso; intuition congruence.
  - intros self cands h a n k h' f t g w Hlog H Hin Hw.
    destruct (build_inv self _ _ _ _ _ _ H)
      as (_ & _ & _ & _ & _ & _ & _ & _ & _ & Hc & _).
    rewrite Hlog in Hc. simpl in Hc. rewrite Hc in Hin.
    destruct (build_edges self _ _ _ _ _ _ H) as (_ & Hset & Hclear & _).
    split_and!; [|by eapply Hset|by eapply Hclear].
    pose proof (build_calls_no_loop self cands 0 8 (le_n 8)) as Hnl.
    by apply (proj1 (Forall_forall _ _) Hnl _ Hin).
Qed.

Lemma forced_progression_witness :
  0 ≠ 1 ∧
  nd_get (tensor_of (build Demo.self ["dog"; "frisbee"] Demo.heap0)) 0 1 2 = Some 1%Z ∧
  nd_get (tensor_of (build Demo.self ["dog"; "frisbee"] Demo.heap0)) 0 0 2 = Some 0%Z.
Proof.
  apply (proj2 forced_progression Demo.self ["dog"; "frisbee"] Demo.heap0 _ 8 2
           (heap_of (build Demo.self ["dog"; "frisbee"] Demo.heap0)) 0 1 [2; 7] 2).
  - reflexivity.
  - exact (proj1 demo_dog_frisbee).
  - rewrite (proj2 demo_dog_frisbee). apply list_elem_of_here.
  - apply list_elem_of_here.
Defined.

(** C9: within one build the auxiliary states are exactly the indices
    from 8 up to the returned state count, and each of them is entered
    by exactly one [add_connect] call and left by exactly one: no two
    chains, of one candidate or of two, share an auxiliary state. *)
Theorem auxiliary_states_not_shared self cands h m n k h' :
  heap_calls h = [] →
  build self cands h = Ok ((m, n, k), h') →
  8 ≤ n ∧
  ∀ x, 8 ≤ x →
    uses_as_target x (heap_calls h') = (if decide (x < n) then 1 else 0) ∧
    uses_as_source x (heap_calls h') = (if decide (x < n) then 1 else 0).
Proof.
  intros Hlog H.
  destruct (build_inv self _ _ _ _ _ _ H)
    as (_ & _ & _ & _ & _ & _ & Hfit & -> & _ & Hc & _).
  rewrite Hlog in Hc. simpl in Hc. rewrite Hc.
  pose proof (build_calls_mono self cands 0 8) as Hmono.
  split; [done|]. intros x Hx.
  rewrite build_calls_targets, build_calls_sources by done.
  split; repeat case_decide; lia.
Qed.

Lemma auxiliary_states_not_shared_witness :
  8 ≤ 16 ∧
  ∀ x, 8 ≤ x →
    uses_as_target x
      (heap_calls (heap_of (build Demo.self ["wood burning stove"] Demo.heap0)))
    = (if decide (x < 16) then 1 else 0) ∧
    uses_as_source x
      (heap_calls (heap_of (build Demo.self ["wood burning stove"] Demo.heap0)))
    = (if decide (x < 16) then 1 else 0).
Proof.
  apply (auxiliary_states_not_shared Demo.self ["wood burning stove"] Demo.heap0
           (Some (tensor_of (build Demo.self ["wood burning stove"] Demo.heap0)))
           16 1).
  - reflexivity.
  - by vm_compute.
Defined.

(** *** Which exception a build raises *)

Lemma nd_set_exn a i j k x e : nd_set a i j k x = Raise e → e = IndexError.
Proof.
  unfold nd_set. repeat case_match; congruence.
Qed.

Lemma add_connect_loop_exn f t g a e :
  add_connect_loop f t g a = Raise e → e = IndexError.
Proof.
  revert a. induction g as [|w ws IH]; intros a H; simpl in H; [done|].
  destruct (nd_set a f t w 1) as [a1|e1] eqn:H1; simpl in H;
    [|injection H as <-; by eapply nd_set_exn].
  destruct (nd_set a1 f f w 0) as [a2|e2] eqn:H2; simpl in H;
    [|injection H as <-; by eapply nd_set_exn].
  by eapply IH.
Qed.

Lemma M_add_connect_exn f t g h a e :
  _matrix (heap_M h) = Some a → M_add_connect f t g h = Raise e → e = IndexError.
Proof.
  unfold M_add_connect, add_connect. intros -> H.
  destruct (add_connect_loop f t g a) as [a'|e'] eqn:Hl; simpl in H; [done|].
  injection H as <-. by eapply add_connect_loop_exn.
Qed.

Lemma exec_calls_exn cs h a e :
  _matrix (heap_M h) = Some a → exec_calls cs h = Raise e → e = IndexError.
Proof.
  revert h a. induction cs as [|[[f t] g] cs IH]; intros h a Ha H; [done|].
  rewrite exec_calls_cons in H. unfold bind in H.
  destruct (M_add_connect f t g h) as [[[] h1]|e1] eqn:H1.
  - destruct (M_add_connect_inv _ _ _ _ _ _ H1 Ha) as (a1 & _ & Ha1 & _).
    by eapply IH.
  - injection H as <-. by eapply M_add_connect_exn.
Qed.

Ltac step_allocated :=
  match goal with
  | Ha : _matrix (heap_M ?h) = Some _
    |- context [M_add_connect ?f ?t ?g ?h] =>
      let E := fresh "E" in
      destruct (M_add_connect f t g h) as [[[] ?]|?] eqn:E;
      [ destruct (M_add_connect_inv _ _ _ _ _ _ E Ha) as (? & _ & ? & _);
        clear E Ha
      | f_equal; by eapply M_add_connect_exn ]
  end.

Lemma candidate_body_ge3_IndexError self i target s h a :
  _matrix (heap_M h) = Some a →
  word_groups self target ≠ [] → 3 ≤ i →
  candidate_body self i target s h = Raise IndexError.
Proof.
  intros Ha Hw Hi. unfold candidate_body, word_groups in *.
  destruct i as [|[|[|i]]]; [lia..|].
  destruct (split target) as [|w1 [|w2 [|w3 [|w4 ws]]]] eqn:Hsplit; try done;
    cbn -[M_add_connect]; unfold bind, ret; cbn -[M_add_connect];
    repeat (step_allocated; cbn -[M_add_connect]); reflexivity.
Qed.

Lemma loop_unfit_IndexError self cands i s h a :
  _matrix (heap_M h) = Some a →
  ¬ fits self i cands →
  for_fold (enumerate_from i cands) s
    (λ '(i, target) start_additional_index,
       candidate_body self i target start_additional_index) h
  = Raise IndexError.
Proof.
  revert i s h a. induction cands as [|c rest IH]; intros i s h a Ha Hfit.
  - by destruct Hfit.
  - cbn [enumerate_from for_fold]. unfold bind at 1.
    destruct (decide (word_groups self c = [] ∨ i < 3)) as [Hc|Hc].
    + rewrite candidate_body_eq by done. unfold bind at 1.
      destruct (exec_calls _ h) as [[[] h1]|e] eqn:Hrun.
      * destruct (exec_calls_inv 0 0 _ _ _ _ Hrun Ha) as (a1 & Ha1 & _).
        unfold ret at 1. eapply IH; [done|]. intros Hrest. apply Hfit. by split.
      * f_equal. by eapply exec_calls_exn.
    + erewrite candidate_body_ge3_IndexError; [done..| |]; [naive_solver|lia].
Qed.

(** A candidate the loop body handles at index 3 or beyond makes the
    build raise [IndexError]. *)
Lemma build_Raise_unfit_IndexError self cands h :
  ¬ fits self 0 cands → build self cands h = Raise IndexError.
Proof.
  intros Hfit. rewrite build_unfold.
  destruct (build_init h) as (h1 & a0 & -> & Ha0 & Hv & Hc & Hfresh).
  unfold bind at 1. unfold enumerate.
  by erewrite loop_unfit_IndexError.
Qed.

Lemma candidates_loop_length self anns cands r :
  candidates_loop self anns cands = Ok r →
  length r ≤ length cands + length anns.
Proof.
  revert cands. induction anns as [|cls rest IH]; intros cands H; simpl in H.
  - injection H as <-. lia.
  - destruct (oi_class_list self !! cls) as [name|]; [|done].
    apply IH in H. case_decide; rewrite ?length_app in H; simpl in *; lia.
Qed.

(** C7, as stated, fails: four ranked detections give a candidate count
    of 3 and no error; the fourth is dropped without a diagnostic. *)
Lemma candidates_truncated_counterexample :
  candidates_of Demo.self [1; 2; 4; 5] = Ok ["dog"; "frisbee"; "cat"]
  ∧ counts (get_state_matrix Demo.self [1; 2; 4; 5] Demo.heap0) = Some (8, 3).
Proof. by vm_compute. Qed.

(** C7, amended: [add_connect] and [init_row] on a matrix that was not
    allocated fail at once with an assertion error.  The ranked
    detections are cut to the first [topk] (3 by default) before the
    candidates are formed, silently, so the candidate count never exceeds
    [topk]; a candidate list that still holds a phrase of one to three
    words at index 3 or beyond makes the build raise [IndexError]. *)
Theorem precondition_violations :
  (∀ f t g vs, add_connect f t g (_CBSMatrix_new vs) = Raise AssertionError)
  ∧ (∀ s vs, init_row s (_CBSMatrix_new vs) = Raise AssertionError)
  ∧ (∀ self anns, candidates_of self anns = candidates_of self (take (topk self) anns))
  ∧ (∀ self anns cands,
       candidates_of self anns = Ok cands → length cands ≤ topk self)
  ∧ (∀ self cands h, ¬ fits self 0 cands → build self cands h = Raise IndexError).
Proof.
  split_and!.
  - reflexivity.
  - reflexivity.
  - intros self anns. unfold candidates_of. by rewrite take_take, Nat.min_id.
  - intros self anns cands H. unfold candidates_of in H.
    apply candidates_loop_length in H. rewrite length_take in H. simpl in H. lia.
  - apply build_Raise_unfit_IndexError.
Qed.

Lemma precondition_violations_witness :
  length ["dog"; "frisbee"; "cat"] ≤ topk Demo.self.
Proof.
  apply (proj1 (proj2 (proj2 (proj2 precondition_violations)))
           Demo.self [1; 2; 4; 5]).
  by vm_compute.
Defined.

(** C4: with three candidates of three words each the build needs states
    up to index 31; the write to state 26 is outside the 26 allocated
    states and raises [IndexError].  When every word is unknown no write
    happens and the state count returned is 32. *)
Theorem three_word_candidates_overflow :
  candidates_of Demo.self [3; 5; 6]
  = Ok ["wood burning stove"; "chest of drawers"; "salt and pepper"]
  ∧ get_state_matrix Demo.self [3; 5; 6] Demo.heap0 = Raise IndexError
  ∧ (6, 26, get_word_set Demo.self "salt")
    ∈ (build_calls Demo.self 0
         ["wood burning stove"; "chest of drawers"; "salt and pepper"] 8).1
  ∧ get_word_set Demo.self "salt" = [12]
  ∧ counts (build Demo.self ["a b c"; "d e f"; "g h i"] Demo.heap0) = Some (32, 3).
Proof.
  split_and!; try by vm_compute. compute_done.
Qed.

(** *** Single-word candidates *)

Lemma word_groups_single self c :
  length (split c) = 1 → word_groups self c = [get_word_set self c].
Proof.
  unfold word_groups. destruct (split c) as [|w [|w' ws]]; simpl; [lia|done|lia].
Qed.

Lemma single_word_calls self h cands :
  vocab_ok self h →
  1 ≤ length cands ≤ 3 →
  Forall (λ c, length (split c) = 1) cands →
  fits self 0 cands ∧
  Forall (call_in_shape 26 (vocab_size (heap_M h))) (build_calls self 0 cands 8).1 ∧
  build_calls self 0 cands 8
  = (concat (imap (λ i c, (λ '(f, t), (f, t, get_word_set self c)) <$> endpoints i)
               cands), 8).
Proof.
  intros Hv Hlen Hall.
  assert (Hshape : ∀ f t c, f < 26 → t < 26 →
            call_in_shape 26 (vocab_size (heap_M h)) (f, t, get_word_set self c)).
  { intros. apply in_shape_intro; try done. by apply get_word_set_lt. }
  destruct cands as [|c0 [|c1 [|c2 [|c3 rest]]]]; simpl in Hlen; try lia;
    repeat match goal with
           | H : Forall _ (_ :: _) |- _ => apply Forall_cons in H as [?%(word_groups_single self) H]
           end;
    (split_and!;
     [ simpl; split_and?; (done || (right; lia))
     | cbn [build_calls fst snd]; rewrite ?candidate_calls_unfold;
       repeat match goal with H : word_groups _ _ = _ |- _ => rewrite !H; clear H end;
       cbn -[get_word_set]; repeat (apply Forall_cons; split; [apply Hshape; lia|]);
       constructor
     | cbn [build_calls fst snd]; rewrite ?candidate_calls_unfold;
       repeat match goal with H : word_groups _ _ = _ |- _ => rewrite !H; clear H end;
       reflexivity ]).
Qed.

Lemma permutations_3 :
  permutations [0; 1; 2]
  = [[0; 1; 2]; [1; 0; 2]; [1; 2; 0]; [0; 2; 1]; [2; 0; 1]; [2; 1; 0]].
Proof. reflexivity. Qed.

Lemma permutations_2 : permutations [0; 1] = [[0; 1]; [1; 0]].
Proof. reflexivity. Qed.

Lemma permutations_1 : permutations [0] = [[0]].
Proof. reflexivity. Qed.

Ltac solve_elem :=
  solve [repeat first [apply list_elem_of_here | apply list_elem_of_further]].

Ltac go Hshape Hset s1 :=
  eapply (run_from_step _ _ _ _ s1);
  [exact Hshape | eapply Hset; [solve_elem | eassumption] | ].

Ltac walk Hshape Hset :=
  repeat first [ go Hshape Hset 1 | go Hshape Hset 2 | go Hshape Hset 3
               | go Hshape Hset 4 | go Hshape Hset 5 | go Hshape Hset 6
               | go Hshape Hset 7 ];
  apply run_from_nil.

Ltac tokens HF :=
  repeat (apply Forall2_cons_inv_l in HF as (? & ? & (? & ? & ?) & HF & ->));
  apply Forall2_nil_inv_l in HF as ->;
  repeat match goal with
         | H : (_ :: _) !! _ = Some _ |- _ => simpl in H; injection H as <-
         end.

(** C1, as stated, fails: for ["dog", "frisbee"] neither order of the two
    tokens leads to state 7; both lead to state 6, and state 7 is left
    unreachable.  (State count 8 and candidate count 2 are as stated.) *)
Lemma dog_frisbee_counterexample :
  counts (build Demo.self ["dog"; "frisbee"] Demo.heap0) = Some (8, 2)
  ∧ get_word_set Demo.self "dog" = [2; 7]
  ∧ get_word_set Demo.self "frisbee" = [3]
  ∧ run_from (tensor_of (build Demo.self ["dog"; "frisbee"] Demo.heap0)) [2; 3] 0 = [6]
  ∧ run_from (tensor_of (build Demo.self ["dog"; "frisbee"] Demo.heap0)) [3; 2] 0 = [6]
  ∧ 7 ∉ run_from (tensor_of (build Demo.self ["dog"; "frisbee"] Demo.heap0)) [2; 3] 0.
Proof. split_and!; try by vm_compute. compute_done. Qed.

(** C1, amended: for K single-word candidates, 1 ≤ K ≤ 3, the build
    returns state count 8 and candidate count K, and one token from each
    candidate's word group, in any order of the candidates, leads from
    state 0 to the state that stands for all K candidates: state 1 for
    K = 1, state 6 for K = 2, the terminal state 7 for K = 3.  State 7 is
    reachable only when K = 3, and by no sequence of fewer than 3
    tokens. *)
Theorem single_word_candidates self h cands :
  vocab_ok self h →
  1 ≤ length cands ≤ 3 →
  Forall (λ c, length (split c) = 1) cands →
  ∃ a h',
    build self cands h = Ok ((Some a, 8, length cands), h') ∧
    (∀ p toks,
       p ≡ₚ seq 0 (length cands) →
       Forall2 (λ i t, ∃ c, cands !! i = Some c ∧ t ∈ get_word_set self c) p toks →
       satisfied_state (length cands) ∈ run_from a toks 0) ∧
    (∀ toks, 7 ∈ run_from a toks 0 → length cands = 3 ∧ 3 ≤ length toks).
Proof.
  intros Hv Hlen Hall.
  destruct (single_word_calls self h cands Hv Hlen Hall) as (Hfit & Hin & Hcalls).
  destruct (build_Ok_calls self cands h Hfit Hin) as (a & h' & H & _).
  rewrite Hcalls in H. simpl in H. exists a, h'. split; [exact H|].
  destruct (build_edges self _ _ _ _ _ _ H) as (Hshape & Hset & _ & Hinv & _).
  rewrite Hcalls in Hset, Hinv. clear Hcalls Hin Hfit H Hall.
  destruct cands as [|c0 [|c1 [|c2 [|c3 rest]]]]; simpl in Hlen; try lia;
    cbn -[get_word_set] in Hset, Hinv.
  - (* K = 1 *)
    split.
    + intros p toks Hp%symmetry%permutations_Permutation HF. simpl in Hp.
      rewrite ?permutations_1 in Hp. in_cases Hp. tokens HF. walk Hshape Hset.
    + intros toks H7. exfalso.
      apply (run_from_invariant _ _ _ (λ s, s = 0 ∨ s = 1) _ _ _ Hshape) in H7;
        [lia| |by left].
      intros s s' t Hs [->|(g & Hg & _)]%Hinv; [done|].
      in_cases Hg; lia.
  - (* K = 2 *)
    split.
    + intros p toks Hp%symmetry%permutations_Permutation HF. simpl in Hp.
      rewrite ?permutations_2 in Hp. in_cases Hp; tokens HF; walk Hshape Hset.
    + intros toks H7. exfalso.
      apply (run_from_invariant _ _ _ (λ s, s = 0 ∨ s = 1 ∨ s = 2 ∨ s = 6)
               _ _ _ Hshape) in H7; [lia| |by left].
      intros s s' t Hs [->|(g & Hg & _)]%Hinv; [done|].
      in_cases Hg; lia.
  - (* K = 3 *)
    split.
    + intros p toks Hp%symmetry%permutations_Permutation HF. simpl in Hp.
      rewrite ?permutations_3 in Hp. in_cases Hp; tokens HF; walk Hshape Hset.
    + intros toks H7. split; [done|].
      apply (run_from_rank _ _ _ tier _ _ _ Hshape) in H7; [simpl in H7; lia|].
      intros s s' t [->|(g & Hg & _)]%Hinv; [lia|].
      in_cases Hg; simpl; lia.
Qed.

Lemma single_word_candidates_witness :
  ∃ a h',
    build Demo.self ["dog"; "frisbee"] Demo.heap0 = Ok ((Some a, 8, 2), h') ∧
    (∀ p toks,
       p ≡ₚ [0; 1] →
       Forall2 (λ i t, ∃ c, ["dog"; "frisbee"] !! i = Some c
                            ∧ t ∈ get_word_set Demo.self c) p toks →
       6 ∈ run_from a toks 0) ∧
    (∀ toks, 7 ∈ run_from a toks 0 → 2 = 3 ∧ 3 ≤ length toks).
Proof.
  apply (single_word_candidates Demo.self Demo.heap0 ["dog"; "frisbee"]
           demo_vocab_ok).
  - simpl. lia.
  - repeat constructor.
Defined.

End claims.

(** * Further properties of the module *)

Section matrix_operations.
Implicit Types (M : _CBSMatrix) (a : ndarray) (g : list nat).

Lemma nd_fill_Raise n v a i j x :
  shape n v a → ¬ (i < n ∧ j < n) → nd_fill a i j x = Raise IndexError.
Proof.
  intros Hs Hout. unfold nd_fill.
  destruct (a !! i) as [row|] eqn:Hrow; [|reflexivity].
  destruct (row !! j) as [cell|] eqn:Hcell; [|reflexivity].
  destruct (shape_lookup _ _ _ _ _ _ _ Hs Hrow Hcell) as (? & ? & ? & ?). lia.
Qed.

(** X1: on an allocated tensor [add_connect] returns exactly when the
    token list is empty or both states and every token are inside the
    tensor; otherwise it raises [IndexError].  An empty token list is
    accepted whatever the two states are. *)
Theorem add_connect_outcome n v f t g M a :
  _matrix M = Some a → shape n v a →
  (call_in_shape n v (f, t, g) →
   ∃ a', add_connect f t g M
         = Ok (tt, {| _matrix := Some a'; vocab_size := vocab_size M |})
         ∧ shape n v a')
  ∧ (¬ call_in_shape n v (f, t, g) → add_connect f t g M = Raise IndexError).
Proof.
  intros Ha Hs. unfold add_connect. rewrite Ha. split.
  - intros Hc. destruct (add_connect_loop_Ok n v f t g a Hs Hc) as [a' Hl].
    exists a'. rewrite Hl. split; [reflexivity|].
    by eapply add_connect_loop_shape.
  - intros Hc. by rewrite (add_connect_loop_Raise n v).
Qed.

Lemma add_connect_outcome_witness :
  (call_in_shape 1 1 (5, 9, []) →
   ∃ a', add_connect 5 9 [] {| _matrix := Some [[[1%Z]]]; vocab_size := 1 |}
         = Ok (tt, {| _matrix := Some a'; vocab_size := 1 |})
         ∧ shape 1 1 a')
  ∧ (¬ call_in_shape 1 1 (5, 9, []) →
     add_connect 5 9 [] {| _matrix := Some [[[1%Z]]]; vocab_size := 1 |}
     = Raise IndexError).
Proof.
  apply (add_connect_outcome 1 1 5 9 []
           {| _matrix := Some [[[1%Z]]]; vocab_size := 1 |} [[[1%Z]]]).
  - reflexivity.
  - split; [reflexivity|]. repeat constructor.
Defined.

(** X2: [add_connect(f, t, g)] touches only row [f], only the tokens of
    [g], and there only the columns [f] and [t]: every other entry of the
    tensor is as before. *)
Theorem add_connect_frame f t g M M' a i j k :
  _matrix M = Some a →
  add_connect f t g M = Ok (tt, M') →
  i ≠ f ∨ k ∉ g ∨ (j ≠ f ∧ j ≠ t) →
  ∃ a', _matrix M' = Some a' ∧ nd_get a' i j k = nd_get a i j k.
Proof.
  intros Ha H Hfar. unfold add_connect in H. rewrite Ha in H.
  destruct (add_connect_loop f t g a) as [a'|] eqn:Hl; [|discriminate H].
  simpl in H. injection H as <-. exists a'. split; [reflexivity|].
  rewrite (add_connect_loop_get _ _ _ _ _ i j k Hl). unfold connect_cell.
  repeat case_decide; try reflexivity; exfalso; intuition congruence.
Qed.

Lemma add_connect_frame_witness :
  ∃ a', _matrix {| _matrix := Some [[[0%Z]; [1%Z]]; [[0%Z]; [1%Z]]]; vocab_size := 1 |}
        = Some a'
        ∧ nd_get a' 1 1 0 = nd_get [[[1%Z]; [0%Z]]; [[0%Z]; [1%Z]]] 1 1 0.
Proof.
  apply (add_connect_frame 0 1 [0]
           {| _matrix := Some [[[1%Z]; [0%Z]]; [[0%Z]; [1%Z]]]; vocab_size := 1 |}
           _ _ 1 1 0).
  - reflexivity.
  - reflexivity.
  - left. lia.
Defined.

(** X3: on an allocated tensor of [n] states [init_row(s)] with [s < n]
    sets [[s][s][t]] to 1 for every token [t], also where an earlier
    [add_connect] had cleared it, and changes nothing else; with
    [s ≥ n] it raises [IndexError]. *)
Theorem init_row_outcome n v s M a :
  _matrix M = Some a → shape n v a →
  (s < n →
   ∃ a', init_row s M = Ok (tt, {| _matrix := Some a'; vocab_size := vocab_size M |})
     ∧ shape n v a'
     ∧ ∀ i j k, nd_get a' i j k
                = if decide (i = s ∧ j = s ∧ k < v) then Some 1%Z
                  else nd_get a i j k)
  ∧ (n ≤ s → init_row s M = Raise IndexError).
Proof.
  intros Ha Hs. unfold init_row. rewrite Ha. split.
  - intros Hlt.
    destruct (nd_fill_spec n v a s s 1%Z Hs Hlt Hlt) as (a' & Hf & Hs' & Hget).
    exists a'. rewrite Hf. split; [reflexivity|]. split; [exact Hs'|exact Hget].
  - intros Hge. rewrite (nd_fill_Raise n v) by (done || lia). reflexivity.
Qed.

Lemma init_row_outcome_witness :
  (0 < 1 →
   ∃ a', init_row 0 {| _matrix := Some [[[0%Z]]]; vocab_size := 1 |}
         = Ok (tt, {| _matrix := Some a'; vocab_size := 1 |})
     ∧ shape 1 1 a'
     ∧ ∀ i j k, nd_get a' i j k
                = if decide (i = 0 ∧ j = 0 ∧ k < 1) then Some 1%Z
                  else nd_get [[[0%Z]]] i j k)
  ∧ (1 ≤ 0 → init_row 0 {| _matrix := Some [[[0%Z]]]; vocab_size := 1 |}
             = Raise IndexError).
Proof.
  apply (init_row_outcome 1 1 0 {| _matrix := Some [[[0%Z]]]; vocab_size := 1 |}
           [[[0%Z]]]).
  - reflexivity.
  - split; [reflexivity|]. repeat constructor.
Defined.

End matrix_operations.

Section build_behaviour.
Import CBSConstraint.
Implicit Types (h : heap) (cands : list string) (cs : list connect_call).

Ltac elem_cases H :=
  repeat (apply elem_of_cons in H as [H|H]; [simplify_eq|]);
  try (by apply elem_of_nil in H).

(** X4: the build never trips the allocation assertion of [_CBSMatrix]:
    whatever the candidates and whatever the state of [self.M] before the
    call, it returns or raises [IndexError]. *)
Theorem build_raises_only_IndexError self cands h e :
  build self cands h = Raise e → e = IndexError.
Proof.
  intros H.
  destruct (decide (fits self 0 cands)) as [Hfit|Hfit].
  - destruct (decide (Forall (call_in_shape 26 (vocab_size (heap_M h)))
                        (build_calls self 0 cands 8).1)) as [Hall|Hall].
    + destruct (build_Ok self cands h Hfit Hall) as (a & h' & Hok).
      rewrite Hok in H. discriminate H.
    + rewrite (build_Raise_shape self cands h Hfit Hall) in H. by injection H.
  - rewrite (build_Raise_unfit_IndexError self cands h Hfit) in H. by injection H.
Qed.

Lemma build_raises_only_IndexError_witness : IndexError = IndexError.
Proof.
  apply (build_raises_only_IndexError Demo.self
           ["wood burning stove"; "chest of drawers"; "salt and pepper"]
           Demo.heap0 IndexError).
  by vm_compute.
Defined.

(** X5: [init_matrix(26)] at the start of the build discards what
    [self.M] held: the outcome is the one from a matrix that was never
    allocated, so nothing of an earlier image survives. *)
Theorem build_ignores_previous_tensor self cands h :
  build self cands h
  = build self cands {| heap_M := _CBSMatrix_new (vocab_size (heap_M h));
                        heap_calls := heap_calls h |}.
Proof. rewrite !build_unfold, !init_matrix_then. reflexivity. Qed.

Lemma word_groups_length self c :
  length (word_groups self c)
  = if decide (1 ≤ length (split c) ≤ 3) then length (split c) else 0.
Proof.
  unfold word_groups.
  destruct (split c) as [|w1 [|w2 [|w3 [|w4 ws]]]]; cbn [length];
    case_decide; lia.
Qed.

Lemma build_calls_count self cands i s :
  (build_calls self i cands s).2
  = s + sum_list_with (λ c, aux_used (word_groups self c)) cands.
Proof.
  revert i s. induction cands as [|c rest IH]; intros i s; simpl; [lia|].
  rewrite IH. lia.
Qed.

(** X6: the state count a build returns is 8 plus, for every candidate
    of W words with 1 ≤ W ≤ 3, 4·(W − 1) auxiliary states; candidates of
    no word or of more than three words add nothing.  The candidate count
    is the length of the list, skipped candidates included. *)
Theorem build_state_count self cands h m n k h' :
  build self cands h = Ok ((m, n, k), h') →
  n = 8 + sum_list_with
            (λ c, if decide (1 ≤ length (split c) ≤ 3)
                  then 4 * (length (split c) - 1) else 0) cands
  ∧ k = length cands.
Proof.
  intros H.
  destruct (build_inv self _ _ _ _ _ _ H)
    as (_ & _ & _ & _ & _ & _ & _ & -> & -> & _).
  split; [|reflexivity]. rewrite build_calls_count. f_equal. clear H.
  induction cands as [|c rest IH]; simpl; [reflexivity|]. rewrite IH. f_equal.
  unfold aux_used. rewrite word_groups_length. by case_decide.
Qed.

Lemma build_state_count_witness :
  16 = 8 + sum_list_with
             (λ c, if decide (1 ≤ length (split c) ≤ 3)
                   then 4 * (length (split c) - 1) else 0)
             ["dog"; "wood burning stove"; "frisbee"]
  ∧ 3 = length ["dog"; "wood burning stove"; "frisbee"].
Proof.
  apply (build_state_count Demo.self ["dog"; "wood burning stove"; "frisbee"]
           Demo.heap0
           (Some (tensor_of (build Demo.self ["dog"; "wood burning stove"; "frisbee"]
                               Demo.heap0)))
           16 3
           (heap_of (build Demo.self ["dog"; "wood burning stove"; "frisbee"]
                       Demo.heap0))).
  by vm_compute.
Defined.

Lemma build_calls_skipped self cands i s :
  Forall (λ c, length (split c) = 0 ∨ 3 < length (split c)) cands →
  build_calls self i cands s = ([], s) ∧ fits self i cands.
Proof.
  revert i s. induction cands as [|c rest IH]; intros i s Hall; [done|].
  apply Forall_cons in Hall as [Hc Hrest].
  assert (word_groups self c = []) as Hw.
  { apply length_zero_iff_nil. rewrite word_groups_length. case_decide; lia. }
  cbn [build_calls fits]. rewrite Hw.
  destruct (IH (S i) (s + aux_used []) Hrest) as [-> Hfit].
  split; [|split; [by left|exact Hfit]].
  rewrite candidate_calls_unfold. cbn. f_equal; [|lia].
  destruct (endpoints i) as [|[f0 t0] [|[f1 t1] [|[f2 t2] [|[f3 t3] [|]]]]]; reflexivity.
Qed.

(** X7: a candidate that splits into no word, or into more than three,
    is skipped without any error: a list of such candidates, however
    long, leaves the tensor in its initial state (every state looping
    on every token), makes no [add_connect] call and returns state count
    8, yet every one of them is counted in the candidate count. *)
Theorem build_skips_other_lengths self cands h :
  Forall (λ c, length (split c) = 0 ∨ 3 < length (split c)) cands →
  ∃ a h', build self cands h = Ok ((Some a, 8, length cands), h')
    ∧ heap_calls h' = heap_calls h
    ∧ fresh (vocab_size (heap_M h)) a.
Proof.
  intros Hall. destruct (build_calls_skipped self cands 0 8 Hall) as [Hcalls Hfit].
  destruct (build_Ok_calls self cands h Hfit) as (a & h' & H & Hc).
  { rewrite Hcalls. constructor. }
  rewrite Hcalls in H, Hc. simpl in H, Hc. rewrite app_nil_r in Hc.
  exists a, h'. split; [exact H|]. split; [exact Hc|].
  destruct (build_inv self _ _ _ _ _ _ H)
    as (a0 & a' & [Hs0 Hfresh] & Ha' & _ & Hs & _ & _ & _ & _ & _ & Hget).
  injection Ha' as <-. rewrite Hcalls in Hget. simpl in Hget.
  split; [exact Hs|]. intros i j k Hi Hj Hk. rewrite Hget. by apply Hfresh.
Qed.

Lemma build_skips_other_lengths_witness :
  ∃ a h', build Demo.self [""; "a b c d"; "  "; "e f g h i"] Demo.heap0
          = Ok ((Some a, 8, length [""; "a b c d"; "  "; "e f g h i"]), h')
    ∧ heap_calls h' = heap_calls Demo.heap0
    ∧ fresh (vocab_size (heap_M Demo.heap0)) a.
Proof.
  apply (build_skips_other_lengths Demo.self [""; "a b c d"; "  "; "e f g h i"]
           Demo.heap0).
  repeat constructor; simpl; lia.
Defined.

End build_behaviour.

Section build_success.
Import CBSConstraint.
Implicit Types (h : heap) (cands : list string) (cs : list connect_call).

Ltac elem_cases H :=
  repeat (apply elem_of_cons in H as [H|H]; [simplify_eq|]);
  try (by apply elem_of_nil in H).

(** The states and the word group of a call of a chain. *)
Lemma chain_states f t gs s c :
  c ∈ chain f t gs s →
  (c.1.1 = f ∨ s ≤ c.1.1 < s + (length gs - 1))
  ∧ (c.1.2 = t ∨ s ≤ c.1.2 < s + (length gs - 1))
  ∧ c.2 ∈ gs.
Proof.
  revert f s. induction gs as [|g gs IH]; intros f s Hc.
  - by apply elem_of_nil in Hc.
  - destruct gs as [|g' gs].
    + apply list_elem_of_singleton in Hc as ->. simpl.
      split_and!; [by left|by left|apply list_elem_of_here].
    + rewrite chain_cons2 in Hc. apply elem_of_cons in Hc as [->|Hc].
      * simpl. split_and!; [by left|right; lia|apply list_elem_of_here].
      * apply IH in Hc as (Hf & Ht & Hg). simpl length in *.
        split_and!; [right; lia| destruct Ht; [by left|right; lia]
                    |by apply list_elem_of_further].
Qed.

Lemma candidate_calls_states i gs s c :
  c ∈ candidate_calls i gs s →
  (c.1.1 < 8 ∨ s ≤ c.1.1 < s + aux_used gs)
  ∧ (c.1.2 < 8 ∨ s ≤ c.1.2 < s + aux_used gs)
  ∧ c.2 ∈ gs.
Proof.
  rewrite candidate_calls_unfold. unfold aux_used.
  destruct i as [|[|[|i]]]; cbn [endpoints];
    [| | |intros Hc; by apply elem_of_nil in Hc];
    rewrite !elem_of_app; set (w := length gs - 1);
    intros [Hc|[Hc|[Hc|Hc]]]; apply chain_states in Hc as (Hf & Ht & Hg);
    fold w in Hf, Ht; (split_and!; [lia|lia|exact Hg]).
Qed.

Lemma build_calls_states self cands i s c :
  c ∈ (build_calls self i cands s).1 →
  (c.1.1 < 8 ∨ s ≤ c.1.1 < (build_calls self i cands s).2)
  ∧ (c.1.2 < 8 ∨ s ≤ c.1.2 < (build_calls self i cands s).2)
  ∧ ∃ cand, cand ∈ cands ∧ c.2 ∈ word_groups self cand.
Proof.
  revert i s. induction cands as [|cand rest IH]; intros i s Hc; simpl in Hc.
  - by apply elem_of_nil in Hc.
  - cbn [build_calls snd].
    pose proof (build_calls_mono self rest (S i) (s + aux_used (word_groups self cand))).
    apply elem_of_app in Hc as [Hc|Hc].
    + apply candidate_calls_states in Hc as (Hf & Ht & Hg).
      split_and!; [lia|lia|]. exists cand. split; [apply list_elem_of_here|exact Hg].
    + apply IH in Hc as (Hf & Ht & cand' & Hin & Hg).
      split_and!; [lia|lia|]. exists cand'. split; [by apply list_elem_of_further|exact Hg].
Qed.

Lemma fits_short self cands i : i + length cands ≤ 3 → fits self i cands.
Proof.
  revert i. induction cands as [|c rest IH]; intros i Hlen; simpl in *; [done|].
  split; [right; lia|]. apply IH. lia.
Qed.

(** X8: with at most three candidates, a vocabulary whose token ids are
    below the vocabulary size, and a total of at most 18 auxiliary
    states (state count at most 26), the build returns. *)
Theorem build_returns self cands h :
  vocab_ok self h →
  length cands ≤ 3 →
  8 + sum_list_with
        (λ c, if decide (1 ≤ length (split c) ≤ 3)
              then 4 * (length (split c) - 1) else 0) cands ≤ 26 →
  ∃ a h',
    build self cands h
    = Ok ((Some a,
           8 + sum_list_with
                 (λ c, if decide (1 ≤ length (split c) ≤ 3)
                       then 4 * (length (split c) - 1) else 0) cands,
           length cands), h').
Proof.
  intros Hv Hlen Hn.
  assert (Hfit : fits self 0 cands) by (apply fits_short; lia).
  assert (Hcount : (build_calls self 0 cands 8).2
            = 8 + sum_list_with
                    (λ c, if decide (1 ≤ length (split c) ≤ 3)
                          then 4 * (length (split c) - 1) else 0) cands).
  { rewrite build_calls_count. f_equal. clear.
    induction cands as [|c rest IH]; simpl; [reflexivity|]. rewrite IH. f_equal.
    unfold aux_used. rewrite word_groups_length. by case_decide. }
  destruct (build_Ok self cands h Hfit) as (a & h' & H).
  - apply Forall_forall. intros [[f t] g] Hc.
    apply build_calls_states in Hc as (Hf & Ht & cand & _ & Hg). simpl in *.
    apply in_shape_intro; [lia|lia|].
    pose proof (word_groups_lt self h cand Hv) as Hall.
    exact (proj1 (Forall_forall _ _) Hall _ Hg).
  - exists a, h'. rewrite <- Hcount. exact H.
Qed.

Lemma build_returns_witness :
  ∃ a h',
    build Demo.self ["wood burning stove"; "chest of drawers"; "dog"] Demo.heap0
    = Ok ((Some a,
           8 + sum_list_with
                 (λ c, if decide (1 ≤ length (split c) ≤ 3)
                       then 4 * (length (split c) - 1) else 0)
                 ["wood burning stove"; "chest of drawers"; "dog"],
           length ["wood burning stove"; "chest of drawers"; "dog"]), h').
Proof.
  apply (build_returns Demo.self ["wood burning stove"; "chest of drawers"; "dog"]
           Demo.heap0 demo_vocab_ok).
  - simpl. lia.
  - vm_compute. lia.
Defined.

(** X9: every entry of the tensor a build returns is 0 or 1. *)
Theorem build_entries_are_bits self cands h a n k h' i j t :
  build self cands h = Ok ((Some a, n, k), h') →
  i < 26 → j < 26 → t < vocab_size (heap_M h) →
  nd_get a i j t = Some 0%Z ∨ nd_get a i j t = Some 1%Z.
Proof.
  intros H Hi Hj Ht.
  destruct (build_inv self _ _ _ _ _ _ H)
    as (a0 & a' & [Hs0 Hfresh] & Ha' & _ & Hs & _ & _ & _ & _ & _ & Hget).
  injection Ha' as <-. rewrite Hget, (Hfresh i j t Hi Hj Ht).
  generalize ((build_calls self 0 cands 8).1). intros cs.
  assert (Hbit : ∀ old, old = Some 0%Z ∨ old = Some 1%Z →
            calls_cell cs i j t old = Some 0%Z ∨ calls_cell cs i j t old = Some 1%Z).
  { induction cs as [|[[f' t'] g'] cs IH]; intros old Hold; [exact Hold|].
    rewrite calls_cell_cons. apply IH. unfold connect_cell.
    repeat case_decide; auto. }
  apply Hbit. case_decide; auto.
Qed.

Lemma build_entries_are_bits_witness :
  nd_get (tensor_of (build Demo.self ["dog"; "frisbee"] Demo.heap0)) 0 1 2 = Some 0%Z
  ∨ nd_get (tensor_of (build Demo.self ["dog"; "frisbee"] Demo.heap0)) 0 1 2 = Some 1%Z.
Proof.
  apply (build_entries_are_bits Demo.self ["dog"; "frisbee"] Demo.heap0 _ 8 2
           (heap_of (build Demo.self ["dog"; "frisbee"] Demo.heap0)) 0 1 2).
  - exact (proj1 demo_dog_frisbee).
  - lia.
  - lia.
  - simpl. lia.
Defined.

(** X10: the automaton of a build is never stuck: in each of the 26
    states every token has at least one successor state. *)
Theorem build_never_stuck self cands h a n k h' s t :
  build self cands h = Ok ((Some a, n, k), h') →
  s < 26 → t < vocab_size (heap_M h) →
  ∃ s', s' ∈ successors a s t.
Proof.
  intros H Hs Ht.
  destruct (build_edges self _ _ _ _ _ _ H) as (Hshape & Hset & _ & _ & Hloop).
  destruct (decide (Exists (λ c : connect_call, c.1.1 = s ∧ t ∈ c.2)
                      (build_calls self 0 cands 8).1)) as [Hex|Hno].
  - apply Exists_exists in Hex as ([[f to_state] g] & Hin & Hf & Hg).
    simpl in Hf, Hg. subst f. exists to_state.
    apply (elem_of_successors _ _ _ _ _ _ Hshape). by apply (Hset s to_state g).
  - exists s. apply (elem_of_successors _ _ _ _ _ _ Hshape).
    apply Hloop; [exact Hs|exact Ht|].
    intros to_state g Hin Hg. apply Hno. apply Exists_exists.
    exists (s, to_state, g). split; [exact Hin|]. split; [reflexivity|exact Hg].
Qed.

Lemma build_never_stuck_witness :
  ∃ s', s' ∈ successors (tensor_of (build Demo.self ["dog"; "frisbee"] Demo.heap0)) 6 3.
Proof.
  apply (build_never_stuck Demo.self ["dog"; "frisbee"] Demo.heap0 _ 8 2
           (heap_of (build Demo.self ["dog"; "frisbee"] Demo.heap0)) 6 3).
  - exact (proj1 demo_dog_frisbee).
  - lia.
  - simpl. lia.
Defined.

End build_success.

Section phrases_and_candidates.
Import CBSConstraint.
Implicit Types (h : heap) (cands : list string).

Ltac elem_cases H :=
  repeat (apply elem_of_cons in H as [H|H]; [simplify_eq|]);
  try (by apply elem_of_nil in H).

(** X11: the words of a two-word candidate must come in order.  For the
    single candidate "a b" the build returns state count 12; a token of
    "a" followed by a token of "b" leads from state 0 to the candidate's
    tier-1 state, and no single token does. *)
Theorem two_word_phrase_order self h c s1 s2 :
  vocab_ok self h →
  split c = [s1; s2] →
  ∃ a h',
    build self [c] h = Ok ((Some a, 12, 1), h') ∧
    (∀ t1 t2, t1 ∈ get_word_set self s1 → t2 ∈ get_word_set self s2 →
              tier1 0 ∈ run_from a [t1; t2] 0) ∧
    (∀ t, ¬ (tier1 0 ∈ run_from a [t] 0)).
Proof.
  intros Hv Hsplit.
  assert (Hw : word_groups self c = [get_word_set self s1; get_word_set self s2]).
  { unfold word_groups. by rewrite Hsplit. }
  assert (Hcalls : build_calls self 0 [c] 8
            = ([(0, 8, get_word_set self s1); (8, 1, get_word_set self s2);
                (4, 9, get_word_set self s1); (9, 7, get_word_set self s2);
                (2, 10, get_word_set self s1); (10, 6, get_word_set self s2);
                (3, 11, get_word_set self s1); (11, 5, get_word_set self s2)], 12)).
  { cbn [build_calls fst snd]. rewrite candidate_calls_unfold, Hw. reflexivity. }
  destruct (build_Ok_calls self [c] h) as (a & h' & H & _).
  { split; [right; lia|exact I]. }
  { rewrite Hcalls. cbn [fst].
    repeat (apply Forall_cons; split;
            [apply in_shape_intro; [lia|lia|by apply get_word_set_lt]|]).
    constructor. }
  rewrite Hcalls in H. cbn [fst snd length] in H.
  exists a, h'. split; [exact H|].
  destruct (build_edges self _ _ _ _ _ _ H) as (Hshape & Hset & _ & Hinv & _).
  rewrite Hcalls in Hset, Hinv. cbn [fst] in Hset, Hinv. split.
  - intros t1 t2 Ht1 Ht2.
    apply (run_from_step _ _ _ _ 8 _ _ _ Hshape).
    { apply (Hset 0 8 (get_word_set self s1)); [apply list_elem_of_here|exact Ht1]. }
    apply (run_from_step _ _ _ _ 1 _ _ _ Hshape).
    { apply (Hset 8 1 (get_word_set self s2));
        [apply list_elem_of_further, list_elem_of_here|exact Ht2]. }
    apply run_from_nil.
  - intros t Hrun.
    apply (run_from_cons _ _ _ _ _ _ _ Hshape) in Hrun as (s' & Hedge & Hend).
    apply list_elem_of_singleton in Hend. unfold tier1 in Hend. simpl in Hend.
    subst s'. apply Hinv in Hedge as [Heq|(g & Hin & _)]; [discriminate Heq|].
    elem_cases Hin.
Qed.

Lemma two_word_phrase_order_witness :
  ∃ a h',
    build Demo.self ["salt pepper"] Demo.heap0 = Ok ((Some a, 12, 1), h') ∧
    (∀ t1 t2, t1 ∈ get_word_set Demo.self "salt" →
              t2 ∈ get_word_set Demo.self "pepper" →
              tier1 0 ∈ run_from a [t1; t2] 0) ∧
    (∀ t, ¬ (tier1 0 ∈ run_from a [t] 0)).
Proof.
  apply (two_word_phrase_order Demo.self Demo.heap0 "salt pepper" "salt" "pepper"
           demo_vocab_ok).
  reflexivity.
Defined.

(** X12: a word group holds exactly the vocabulary indices of the word's
    forms (of the word itself when the word-form table has no entry for
    it) that differ from the index of ["@@UNKNOWN@@"]; so it never holds
    that index, and it is empty for an unknown word without forms. *)
Theorem get_word_set_members self target :
  (∀ w, w ∈ get_word_set self target
        ↔ w ≠ _pad_index self
          ∧ ∃ form, form ∈ default [target] (oi_word_form self !! target)
                    ∧ w = get_token_index (_vocabulary self) form)
  ∧ ¬ (_pad_index self ∈ get_word_set self target)
  ∧ (oi_word_form self !! target = None →
     get_token_index (_vocabulary self) target = _pad_index self →
     get_word_set self target = []).
Proof.
  assert (Hmem : ∀ w, w ∈ get_word_set self target
        ↔ w ≠ _pad_index self
          ∧ ∃ form, form ∈ default [target] (oi_word_form self !! target)
                    ∧ w = get_token_index (_vocabulary self) form).
  { intros w. unfold get_word_set.
    change (match oi_word_form self !! target with
            | Some forms => forms
            | None => [target]
            end) with (default [target] (oi_word_form self !! target)).
    generalize (default [target] (oi_word_form self !! target)). intros forms.
    rewrite list_elem_of_filter, list_elem_of_In, in_map_iff.
    split.
    - intros (Hne & form & <- & Hin%list_elem_of_In).
      split; [exact Hne|]. exists form. split; [exact Hin|reflexivity].
    - intros (Hne & form & Hin%list_elem_of_In & ->).
      split; [exact Hne|]. exists form. split; [reflexivity|exact Hin]. }
  split; [exact Hmem|]. split.
  - intros [Hne _]%Hmem. by apply Hne.
  - intros Hnone Hpad. unfold get_word_set. rewrite Hnone. simpl.
    rewrite Hpad. rewrite filter_cons, decide_False; [reflexivity|]. intros Hne. by apply Hne.
Qed.

Lemma lower_ascii_idemp c : lower_ascii (lower_ascii c) = lower_ascii c.
Proof. destruct c as [[] [] [] [] [] [] [] []]; reflexivity. Qed.

Lemma lower_idemp s : lower (lower s) = lower s.
Proof.
  induction s as [|c s IH]; simpl; [reflexivity|].
  by rewrite lower_ascii_idemp, IH.
Qed.

(** The text of a class name: lines 171-173. *)
Lemma replacements_values k v :
  replacements !! k = Some v → lower v = v ∧ replacements !! v = None.
Proof.
  unfold replacements. intros H.
  repeat (apply lookup_insert_Some in H as [[<- <-]|[_ H]]; [by vm_compute|]).
  apply lookup_singleton_Some in H as [<- <-]. by vm_compute.
Qed.

Lemma candidate_text_normal name :
  lower (default (lower name) (replacements !! lower name))
  = default (lower name) (replacements !! lower name)
  ∧ replacements !! default (lower name) (replacements !! lower name) = None.
Proof.
  destruct (replacements !! lower name) as [v|] eqn:Hr; simpl.
  - by apply (replacements_values (lower name)).
  - split; [apply lower_idemp|exact Hr].
Qed.

Lemma candidates_loop_spec self anns acc r :
  candidates_loop self anns acc = Ok r →
  (NoDup acc → NoDup r)
  ∧ ∀ c, c ∈ r ↔ c ∈ acc
               ∨ ∃ cls name, cls ∈ anns ∧ oi_class_list self !! cls = Some name
                   ∧ c = default (lower name) (replacements !! lower name).
Proof.
  revert acc. induction anns as [|cls rest IH]; intros acc H; simpl in H.
  - injection H as <-. split; [done|]. intros c. split; [by left|].
    intros [Hc|(cls & name & Hin & _)]; [exact Hc|by apply elem_of_nil in Hin].
  - destruct (oi_class_list self !! cls) as [name|] eqn:Hname; [|discriminate H].
    apply IH in H as [Hnd Hmem]. split.
    + intros Hacc. apply Hnd. case_decide; [exact Hacc|].
      apply NoDup_app. split; [exact Hacc|]. split; [|apply NoDup_singleton].
      intros x Hx Hx'. apply list_elem_of_singleton in Hx' as ->. contradiction.
    + intros c. rewrite Hmem. split.
      * intros [Hc|(cls' & name' & Hin & Hn & ->)].
        -- case_decide as Hd; [by left|].
           apply elem_of_app in Hc as [Hc|Hc]; [by left|].
           apply list_elem_of_singleton in Hc as ->.
           right. exists cls, name. split; [apply list_elem_of_here|by split].
        -- right. exists cls', name'. split; [by apply list_elem_of_further|by split].
      * intros [Hc|(cls' & name' & Hin & Hn & ->)].
        -- left. case_decide; [exact Hc|]. apply elem_of_app. by left.
        -- apply elem_of_cons in Hin as [->|Hin].
           ++ left. rewrite Hname in Hn. injection Hn as <-.
              case_decide as Hd; [exact Hd|]. apply elem_of_app. right.
              apply list_elem_of_here.
           ++ right. exists cls', name'. by split.
Qed.

(** X13: the candidate texts are pairwise distinct, and they are exactly
    the texts of the classes of the first [topk] annotations, a text
    being the lower-cased class name or its replacement; every candidate
    is in lower case and is not itself a key of [replacements]. *)
Theorem candidates_of_spec self anns cands :
  candidates_of self anns = Ok cands →
  NoDup cands
  ∧ (∀ c, c ∈ cands
          ↔ ∃ cls name, cls ∈ take (topk self) anns
              ∧ oi_class_list self !! cls = Some name
              ∧ c = default (lower name) (replacements !! lower name))
  ∧ (∀ c, c ∈ cands → lower c = c ∧ replacements !! c = None).
Proof.
  intros H. apply candidates_loop_spec in H as [Hnd Hmem].
  assert (Hiff : ∀ c, c ∈ cands
          ↔ ∃ cls name, cls ∈ take (topk self) anns
              ∧ oi_class_list self !! cls = Some name
              ∧ c = default (lower name) (replacements !! lower name)).
  { intros c. rewrite Hmem. split; [|by right].
    intros [Hc|Hc]; [by apply elem_of_nil in Hc|exact Hc]. }
  split; [apply Hnd, NoDup_nil_2|]. split; [exact Hiff|].
  intros c (cls & name & _ & _ & ->)%Hiff. apply candidate_text_normal.
Qed.

Lemma candidates_of_spec_witness :
  NoDup ["dog"; "wood burning stove"]
  ∧ (∀ c, c ∈ ["dog"; "wood burning stove"]
          ↔ ∃ cls name, cls ∈ take (topk Demo.self) [1; 3; 1; 2]
              ∧ oi_class_list Demo.self !! cls = Some name
              ∧ c = default (lower name) (replacements !! lower name))
  ∧ (∀ c, c ∈ ["dog"; "wood burning stove"]
          → lower c = c ∧ replacements !! c = None).
Proof.
  apply (candidates_of_spec Demo.self [1; 3; 1; 2]). by vm_compute.
Defined.



End phrases_and_candidates.

Section detections_facts.
Context {Score : Type} (confident : Score → bool).
Context {Ann : Type} (image_id : Ann → Z).

Lemma elem_of_enumerate_from {A : Type} (l : list A) k i x :
  (i, x) ∈ enumerate_from k l ↔ k ≤ i ∧ l !! (i - k) = Some x.
Proof.
  revert k. induction l as [|y l IH]; intros k; simpl.
  - rewrite elem_of_nil. split; [done|]. by intros [_ ?].
  - rewrite elem_of_cons, IH. split.
    + intros [[= -> ->]|[Hk Hl]].
      * split; [lia|]. by rewrite Nat.sub_diag.
      * split; [lia|]. replace (i - k) with (S (i - S k)) by lia. exact Hl.
    + intros [Hk Hl]. destruct (decide (i = k)) as [->|Hne].
      * left. rewrite Nat.sub_diag in Hl. simpl in Hl. by injection Hl as ->.
      * right. split; [lia|]. replace (i - k) with (S (i - S k)) in Hl by lia.
        exact Hl.
Qed.

Lemma filter_enumerate_sorted {A : Type} (P : nat * A → Prop)
    `{!∀ p, Decision (P p)} (l : list A) k :
  StronglySorted lt ((λ p : nat * A, p.1) <$> filter P (enumerate_from k l))
  ∧ Forall (λ i, k ≤ i) ((λ p : nat * A, p.1) <$> filter P (enumerate_from k l)).
Proof.
  revert k. induction l as [|y l IH]; intros k; simpl.
  - split; constructor.
  - destruct (IH (S k)) as [Hsorted Hge]. rewrite filter_cons.
    assert (Hge' : Forall (λ i, k ≤ i)
              ((λ p : nat * A, p.1) <$> filter P (enumerate_from (S k) l))).
    { eapply Forall_impl; [exact Hge|]. intros i Hi. simpl in Hi. lia. }
    case_decide; simpl.
    + split.
      * constructor; [exact Hsorted|].
        eapply Forall_impl; [exact Hge|]. intros i Hi. simpl in Hi. lia.
      * constructor; [lia|exact Hge'].
    + split; [exact Hsorted|exact Hge'].
Qed.

(** X15: [suppress_parts] keeps exactly the positions whose score passes
    the threshold and whose class is not blacklisted, up to the shorter
    of the two lists, and returns them in increasing order. *)
Theorem suppress_parts_spec (scores : list Score) (classes : list string) :
  (∀ i, i ∈ suppress_parts confident scores classes
        ↔ ∃ cls score, classes !! i = Some cls ∧ scores !! i = Some score
            ∧ confident score = true ∧ cls ∉ BLACKLIST_CATEGORIES)
  ∧ StronglySorted lt (suppress_parts confident scores classes).
Proof.
  split.
  - intros i. unfold suppress_parts, enumerate. rewrite list_elem_of_fmap. split.
    + intros ([i' [cls score]] & -> & [[Hc Hb] Hin]%list_elem_of_filter).
      simpl in *. apply elem_of_enumerate_from in Hin as [_ Hin].
      rewrite Nat.sub_0_r in Hin. apply lookup_zip_with_Some in Hin
        as (cls' & score' & [= <- <-] & Hcls & Hscore).
      exists cls, score. by split_and!.
    + intros (cls & score & Hcls & Hscore & Hc & Hb).
      exists (i, (cls, score)). split; [reflexivity|].
      apply list_elem_of_filter. split; [by split|].
      apply elem_of_enumerate_from. split; [lia|]. rewrite Nat.sub_0_r.
      apply lookup_zip_with_Some. by exists cls, score.
  - apply filter_enumerate_sorted.
Qed.

Lemma image_id_to_boxes_snoc (anns : list Ann) ann :
  image_id_to_boxes image_id (anns ++ [ann])
  = add_box image_id (image_id_to_boxes image_id anns) ann.
Proof. unfold image_id_to_boxes. by rewrite foldl_app. Qed.

Lemma add_box_lookup (d : gmap Z (list Ann)) ann k :
  add_box image_id d ann !! k
  = if decide (k = image_id ann)
    then Some (default [] (d !! k) ++ [ann])%list
    else d !! k.
Proof.
  unfold add_box. destruct (decide (k = image_id ann)) as [->|Hk].
  - rewrite lookup_alter_eq.
    destruct (decide (d !! image_id ann = None)) as [Hd|Hd].
    + by rewrite lookup_insert_eq, Hd.
    + destruct (d !! image_id ann); [reflexivity|contradiction].
  - rewrite lookup_alter_ne by done.
    destruct (decide (d !! image_id ann = None)); [|reflexivity].
    by rewrite lookup_insert_ne.
Qed.

(** X16: [_image_id_to_boxes] maps every image id that occurs in the
    annotations to its annotations in file order, and holds no entry for
    an id that does not occur (looking such an id up is a [KeyError]). *)
Theorem image_id_to_boxes_lookup (anns : list Ann) k :
  image_id_to_boxes image_id anns !! k
  = match filter (λ ann, image_id ann = k) anns with
    | [] => None
    | boxes => Some boxes
    end.
Proof.
  induction anns as [|ann anns IH] using rev_ind.
  - reflexivity.
  - rewrite image_id_to_boxes_snoc, add_box_lookup, filter_app, filter_cons, filter_nil.
    rewrite IH. destruct (decide (k = image_id ann)) as [->|Hne].
    + rewrite decide_True by reflexivity.
      destruct (filter _ anns) as [|b bs]; reflexivity.
    + rewrite decide_False by congruence. rewrite app_nil_r. reflexivity.
Qed.

End detections_facts.

Section phrase_paths.
Import CBSConstraint.
Implicit Types (h : heap) (cands : list string) (a : ndarray).

Ltac elem_cases H :=
  repeat (apply elem_of_cons in H as [H|H]; [simplify_eq|]);
  try (by apply elem_of_nil in H).

Lemma run_from_app n v a toks1 toks2 s x y :
  shape n v a →
  x ∈ run_from a toks1 s → y ∈ run_from a toks2 x →
  y ∈ run_from a (toks1 ++ toks2) s.
Proof.
  intros Hs. revert s. induction toks1 as [|t toks1 IH]; intros s Hx Hy.
  - apply list_elem_of_singleton in Hx as ->. exact Hy.
  - apply (run_from_cons n v) in Hx as (s1 & Hedge & Hx); [|exact Hs].
    simpl app. apply (run_from_step n v _ _ s1); [exact Hs|exact Hedge|].
    by apply IH.
Qed.

(** The tokens of a phrase, in order, walk its chain. *)
Lemma chain_run n v a f t gs s toks :
  shape n v a →
  (∀ f' t' g w, (f', t', g) ∈ chain f t gs s → w ∈ g →
                nd_get a f' t' w = Some 1%Z) →
  gs ≠ [] →
  Forall2 (λ tok g, tok ∈ g) toks gs →
  t ∈ run_from a toks f.
Proof.
  intros Hs. revert f s toks. induction gs as [|g gs IH]; intros f s toks Hset Hne HF.
  - contradiction.
  - apply Forall2_cons_inv_r in HF as (tok & toks' & Htok & HF & ->).
    destruct gs as [|g' gs].
    + apply Forall2_nil_inv_r in HF as ->.
      apply (run_from_step n v _ _ t); [exact Hs| |apply run_from_nil].
      apply (Hset f t g); [apply list_elem_of_here|exact Htok].
    + apply (run_from_step n v _ _ s); [exact Hs| |].
      * apply (Hset f s g); [rewrite chain_cons2; apply list_elem_of_here|exact Htok].
      * apply (IH s (S s)); [|discriminate|exact HF].
        intros f' t' g0 w Hin Hw. apply (Hset f' t' g0); [|exact Hw].
        rewrite chain_cons2. by apply list_elem_of_further.
Qed.

Lemma endpoint_chain i gs s f t :
  (f, t) ∈ endpoints i →
  ∃ s', ∀ c, c ∈ chain f t gs s' → c ∈ candidate_calls i gs s.
Proof.
  intros Hin. rewrite candidate_calls_unfold.
  destruct i as [|[|[|i]]]; cbn [endpoints] in *;
    [| | |by apply elem_of_nil in Hin];
    repeat (apply elem_of_cons in Hin as [Hin|Hin];
            [injection Hin as -> ->; eexists; intros c Hc;
             rewrite !elem_of_app; eauto 6|]);
    by apply elem_of_nil in Hin.
Qed.

Lemma candidate_in_build self cands i0 s i c :
  cands !! i = Some c →
  ∃ s', ∀ x, x ∈ candidate_calls (i0 + i) (word_groups self c) s' →
             x ∈ (build_calls self i0 cands s).1.
Proof.
  revert i0 s i. induction cands as [|c' rest IH]; intros i0 s i Hc; [done|].
  destruct i as [|i]; simpl in Hc.
  - injection Hc as ->. exists s. intros x Hx. cbn [build_calls fst].
    rewrite Nat.add_0_r in Hx. apply elem_of_app. by left.
  - destruct (IH (S i0) (s + aux_used (word_groups self c')) i Hc) as [s' Hs'].
    exists s'. intros x Hx. cbn [build_calls fst]. apply elem_of_app. right.
    apply Hs'. by replace (S i0 + i) with (i0 + S i) by lia.
Qed.

(** Every chain of every candidate of a build that returned can be
    walked by the tokens of the candidate's words, in order. *)
Lemma build_chain_run self cands h a n k h' i c f t toks :
  build self cands h = Ok ((Some a, n, k), h') →
  cands !! i = Some c →
  (f, t) ∈ endpoints i →
  word_groups self c ≠ [] →
  Forall2 (λ tok g, tok ∈ g) toks (word_groups self c) →
  t ∈ run_from a toks f.
Proof.
  intros H Hc Hft Hne HF.
  destruct (build_edges self _ _ _ _ _ _ H) as (Hshape & Hset & _).
  destruct (candidate_in_build self cands 0 8 i c Hc) as [s1 Hs1].
  destruct (endpoint_chain i (word_groups self c) s1 f t Hft) as [s2 Hs2].
  apply (chain_run _ _ _ _ _ (word_groups self c) s2 _ Hshape); [|exact Hne|exact HF].
  intros f' t' g w Hin Hw. apply (Hset f' t' g); [|exact Hw].
  apply Hs1. simpl. by apply Hs2.
Qed.

(** X17: in the automaton of a build that returned, the tokens of the
    words of candidate [i], one per word and in the order of the words,
    lead from state 0 to the candidate's tier-1 state [i + 1], and from
    the tier-2 state [i + 4] to the terminal state 7. *)
Theorem candidate_phrase_paths self cands h a n k h' i c toks :
  build self cands h = Ok ((Some a, n, k), h') →
  cands !! i = Some c →
  1 ≤ length (split c) ≤ 3 →
  Forall2 (λ tok g, tok ∈ g) toks (word_groups self c) →
  tier1 i ∈ run_from a toks 0 ∧ 7 ∈ run_from a toks (i + 4).
Proof.
  intros H Hc Hlen HF.
  assert (Hne : word_groups self c ≠ []).
  { intros Hnil. apply (f_equal length) in Hnil.
    rewrite word_groups_length in Hnil. case_decide; simpl in Hnil; lia. }
  assert (Hi : i < 3).
  { destruct (build_inv self _ _ _ _ _ _ H)
      as (_ & _ & _ & _ & _ & _ & Hfit & _).
    clear -Hfit Hc Hne. revert Hfit. generalize 0 at 1. intros i0 Hfit.
    assert (i0 + i < 3); [|lia].
    revert i0 i Hc Hfit. induction cands as [|c' rest IH]; intros i0 i Hc Hfit; [done|].
    destruct Hfit as [Hfit Hrest]. destruct i as [|i]; simpl in Hc.
    - injection Hc as ->. destruct Hfit; [contradiction|lia].
    - specialize (IH (S i0) i Hc Hrest). lia. }
  split.
  - refine (build_chain_run self cands h a n k h' i c 0 (tier1 i) toks H Hc _ Hne HF).
    destruct i as [|[|[|i]]]; [| | |lia]; apply list_elem_of_here.
  - refine (build_chain_run self cands h a n k h' i c (i + 4) 7 toks H Hc _ Hne HF).
    destruct i as [|[|[|i]]]; [| | |lia];
      apply list_elem_of_further, list_elem_of_here.
Qed.

Lemma candidate_phrase_paths_witness :
  tier1 1 ∈ run_from
              (tensor_of (build Demo.self ["dog"; "wood burning stove"; "frisbee"]
                            Demo.heap0)) [4; 5; 6] 0
  ∧ 7 ∈ run_from
          (tensor_of (build Demo.self ["dog"; "wood burning stove"; "frisbee"]
                        Demo.heap0)) [4; 5; 6] (1 + 4).
Proof.
  apply (candidate_phrase_paths Demo.self ["dog"; "wood burning stove"; "frisbee"]
           Demo.heap0 _ 16 3
           (heap_of (build Demo.self ["dog"; "wood burning stove"; "frisbee"]
                       Demo.heap0)) 1 "wood burning stove" [4; 5; 6]).
  - by vm_compute.
  - reflexivity.
  - simpl. lia.
  - repeat constructor.
Defined.

(** X18: with three candidates of one to three words each, in the
    automaton of a build that returned, the phrases of the three
    candidates taken in any order (each phrase as the tokens of its
    words, in order) lead from state 0 to the terminal state 7. *)
Theorem any_order_reaches_terminal self c0 c1 c2 h a n k h' p toks :
  build self [c0; c1; c2] h = Ok ((Some a, n, k), h') →
  Forall (λ c, 1 ≤ length (split c) ≤ 3) [c0; c1; c2] →
  p ≡ₚ [0; 1; 2] →
  Forall2 (λ i ts, ∃ c, [c0; c1; c2] !! i = Some c
                        ∧ Forall2 (λ tok g, tok ∈ g) ts (word_groups self c))
    p toks →
  7 ∈ run_from a (concat toks) 0.
Proof.
  intros H Hlen Hp HF.
  destruct (build_edges self _ _ _ _ _ _ H) as (Hshape & _).
  assert (Hne : ∀ c, c ∈ [c0; c1; c2] → word_groups self c ≠ []).
  { intros c Hc Hnil. apply (f_equal length) in Hnil.
    rewrite word_groups_length in Hnil.
    pose proof (proj1 (Forall_forall _ _) Hlen c Hc) as Hc3. cbv beta in Hc3.
    case_decide; simpl in Hnil; lia. }
  assert (Hstep : ∀ i c f t ts,
            [c0; c1; c2] !! i = Some c → (f, t) ∈ endpoints i →
            Forall2 (λ tok g, tok ∈ g) ts (word_groups self c) →
            t ∈ run_from a ts f).
  { intros i c f t ts Hc Hft Hts.
    refine (build_chain_run self [c0; c1; c2] h a n k h' i c f t ts H Hc Hft _ Hts).
    apply Hne. exact (list_elem_of_lookup_2 _ _ _ Hc). }
  clear H Hne Hlen.
  apply symmetry, permutations_Permutation in Hp.
  rewrite permutations_3 in Hp.
  elem_cases Hp.
  all: repeat (apply Forall2_cons_inv_l in HF as (? & ? & (? & ? & ?) & HF & ->)).
  all: apply Forall2_nil_inv_l in HF as ->.
  all: cbn [concat]; rewrite app_nil_r.
  - apply (run_from_app _ _ _ _ _ _ 1 _ Hshape);
      [eapply (Hstep 0); [eassumption|apply list_elem_of_here|eassumption]|].
    apply (run_from_app _ _ _ _ _ _ 6 _ Hshape);
      [eapply (Hstep 1); [eassumption|compute_done|eassumption]|].
    eapply (Hstep 2); [eassumption|compute_done|eassumption].
  - apply (run_from_app _ _ _ _ _ _ 2 _ Hshape);
      [eapply (Hstep 1); [eassumption|apply list_elem_of_here|eassumption]|].
    apply (run_from_app _ _ _ _ _ _ 6 _ Hshape);
      [eapply (Hstep 0); [eassumption|compute_done|eassumption]|].
    eapply (Hstep 2); [eassumption|compute_done|eassumption].
  - apply (run_from_app _ _ _ _ _ _ 2 _ Hshape);
      [eapply (Hstep 1); [eassumption|apply list_elem_of_here|eassumption]|].
    apply (run_from_app _ _ _ _ _ _ 4 _ Hshape);
      [eapply (Hstep 2); [eassumption|compute_done|eassumption]|].
    eapply (Hstep 0); [eassumption|compute_done|eassumption].
  - apply (run_from_app _ _ _ _ _ _ 1 _ Hshape);
      [eapply (Hstep 0); [eassumption|apply list_elem_of_here|eassumption]|].
    apply (run_from_app _ _ _ _ _ _ 5 _ Hshape);
      [eapply (Hstep 2); [eassumption|compute_done|eassumption]|].
    eapply (Hstep 1); [eassumption|compute_done|eassumption].
  - apply (run_from_app _ _ _ _ _ _ 3 _ Hshape);
      [eapply (Hstep 2); [eassumption|apply list_elem_of_here|eassumption]|].
    apply (run_from_app _ _ _ _ _ _ 5 _ Hshape);
      [eapply (Hstep 0); [eassumption|compute_done|eassumption]|].
    eapply (Hstep 1); [eassumption|compute_done|eassumption].
  - apply (run_from_app _ _ _ _ _ _ 3 _ Hshape);
      [eapply (Hstep 2); [eassumption|apply list_elem_of_here|eassumption]|].
    apply (run_from_app _ _ _ _ _ _ 4 _ Hshape);
      [eapply (Hstep 1); [eassumption|compute_done|eassumption]|].
    eapply (Hstep 0); [eassumption|compute_done|eassumption].
Qed.

Lemma any_order_reaches_terminal_witness :
  7 ∈ run_from
        (tensor_of (build Demo.self ["dog"; "wood burning stove"; "frisbee"]
                      Demo.heap0))
        (concat [[3]; [4; 5; 6]; [7]]) 0.
Proof.
  apply (any_order_reaches_terminal Demo.self "dog" "wood burning stove" "frisbee"
           Demo.heap0 _ 16 3
           (heap_of (build Demo.self ["dog"; "wood burning stove"; "frisbee"]
                       Demo.heap0)) [2; 1; 0] [[3]; [4; 5; 6]; [7]]).
  - by vm_compute.
  - repeat constructor; simpl; lia.
  - symmetry. apply (proj1 (permutations_Permutation [0; 1; 2] [2; 1; 0])).
    compute_done.
  - constructor; [exists "frisbee"; split; [reflexivity|repeat constructor]|].
    constructor; [exists "wood burning stove"; split; [reflexivity|repeat constructor]|].
    constructor; [exists "dog"; split; [reflexivity|]|constructor].
    constructor; [|constructor]. compute_done.
Defined.

End phrase_paths.
